(** * A slot-based dispenser: inventory store and purchase workflow

    Shallow embedding of [src/inventory/inventory_manager.py] (class [Store])
    and [src/vending_machine.py] (classes [SysErr] and [Sys]).

    Python objects are mutable and shared by reference: the store keeps
    references to [Item] objects that callers still hold.  Objects therefore
    live in an object memory ([Heap]), and the store's dictionaries hold
    locations.  A Python [dict] iterates in insertion order, and [Store.find]
    and [Store.ls] depend on that order, so dictionaries are insertion-ordered
    association lists ([Dict]). *)

From Stdlib Require Import ZArith String List Lia Sorted Permutation.
From stdpp Require Import base option list gmap strings.

Local Open Scope Z_scope.

(** ** Python dictionaries, in insertion order *)

Module Dict.
Section dict.
Context {K V : Type} `{EqDecision K}.

Abbreviation t := (list (K * V)).

Definition empty : t := [].

(** [d.get(k)] *)
Fixpoint get (k : K) (d : t) : option V :=
  match d with
  | [] => None
  | (k', v) :: d' => if decide (k = k') then Some v else get k d'
  end.

(** [k in d] *)
Definition mem (k : K) (d : t) : bool :=
  match get k d with Some _ => true | None => false end.

(** [d[k] = v]: an existing key keeps its place, a new key goes last. *)
Fixpoint set (k : K) (v : V) (d : t) : t :=
  match d with
  | [] => [(k, v)]
  | (k', v') :: d' =>
      if decide (k = k') then (k', v) :: d' else (k', v') :: set k v d'
  end.

(** [del d[k]] for a key that is present (the only use in the source). *)
Fixpoint del (k : K) (d : t) : t :=
  match d with
  | [] => []
  | (k', v') :: d' =>
      if decide (k = k') then del k d' else (k', v') :: del k d'
  end.

(** [d.items()], [d.keys()], [d.values()], [len(d)] *)
Definition items (d : t) : list (K * V) := d.
Definition keys (d : t) : list K := fst <$> d.
Definition values (d : t) : list V := snd <$> d.
Definition len (d : t) : nat := length d.

(** A Python dict holds each key once. *)
Definition wf (d : t) : Prop := NoDup (keys d).
End dict.
Abbreviation t K V := (list (K * V)).
End Dict.

(** ** Items *)

(** Modelled from the spec: the class [Item] of [models/product.py], which is
    not among the sources.  The store and the workflow read the attributes
    [code], [count] and [val] of an item and call its methods [check()] and
    [mod()]; the attributes are the fields of the record, the two methods
    are parameters of the workflow below. *)
Record Item (Price : Type) : Type := mkItem
  { code : string; count : Z; val : Price }.
Arguments mkItem {Price} _ _ _.
Arguments code {Price} _.
Arguments count {Price} _.
Arguments val {Price} _.

(** Object memory: locations of [Item] objects. *)
Definition loc : Type := nat.
Abbreviation Heap Price := (gmap loc (Item Price)).

(** ** [class Store] *)

Record Store : Type := mkStore
  { cap : Z;
    _data : Dict.t string loc;
    _map : Dict.t Z string }.

Section Inventory.
Context {Price : Type}.
Implicit Types (hp : Heap Price) (s : Store) (obj : loc) (pos : Z).

(** [Store.__init__] *)
Definition Store_init (c : Z) : Store :=
  {| cap := c; _data := Dict.empty; _map := Dict.empty |}.

(** [curr.count += n] *)
Definition add_count (n : Z) (it : Item Price) : Item Price :=
  {| code := code it; count := count it + n; val := val it |}.

(** [self._map[pos] = obj.code] followed by [self._data[obj.code] = obj] *)
Definition place (pos : Z) (c : string) (obj : loc) (s : Store) : Store :=
  {| cap := cap s;
     _data := Dict.set c obj (_data s);
     _map := Dict.set pos c (_map s) |}.

(** The [for i in range(self.cap)] scan: the first [i] not in [_map]. *)
Definition free_slot (s : Store) : option Z :=
  List.find (fun i => negb (Dict.mem i (_map s))) (seqZ 0 (cap s)).

(** [Store.put].  [None] stands for a reference to no object, which Python
    cannot produce; the Boolean is the returned value. *)
Definition put (obj : loc) (pos : option Z) hp s
  : option (bool * Heap Price * Store) :=
  o ← hp !! obj;
  match Dict.get (code o) (_data s) with
  | Some curr =>
      c ← hp !! curr;
      Some (true, <[curr := add_count (count o) c]> hp, s)
  | None =>
      match pos with
      | Some p =>
          if bool_decide (p < 0 ∨ p >= cap s) then Some (false, hp, s)
          else if Dict.mem p (_map s) then Some (false, hp, s)
          else Some (true, hp, place p (code o) obj s)
      | None =>
          match free_slot s with
          | Some i => Some (true, hp, place i (code o) obj s)
          | None => Some (false, hp, s)
          end
      end
  end.

(** The loop of [Store.rm] over the snapshot [list(self._map.items())]. *)
Definition rm_loop (c : string) (snapshot : list (Z * string))
    (m : Dict.t Z string) : Dict.t Z string :=
  fold_left (fun m kv => if decide (kv.2 = c) then Dict.del kv.1 m else m)
            snapshot m.

(** [Store.rm] *)
Definition rm (c : string) s : bool * Store :=
  if Dict.mem c (_data s) then
    (true, {| cap := cap s;
              _data := Dict.del c (_data s);
              _map := rm_loop c (Dict.items (_map s)) (_map s) |})
  else (false, s).

(** [Store.get] *)
Definition get (c : string) s : option loc := Dict.get c (_data s).

(** [Store.get_at] *)
Definition get_at pos s : option loc :=
  match Dict.get pos (_map s) with
  | None => None
  | Some c => Dict.get c (_data s)
  end.

(** [Store.find] *)
Definition find (c : string) s : option Z :=
  fst <$> List.find (fun kv => bool_decide (kv.2 = c)) (Dict.items (_map s)).

(** [Store.ls], for an item validity check [check]. *)
Definition ls (check : Item Price → bool) hp s : option (list loc) :=
  its ← mapM (fun l => it ← hp !! l; Some (l, it)) (Dict.values (_data s));
  Some (fst <$> filter (fun li => check li.2 = true) its).
End Inventory.

(** ** Payment handlers *)

(** Modelled from the spec: the classes [Handler], [Cash], [Tx] and
    [TxStatus] of [payment/payment_processor.py], which is not among the
    sources.  The workflow uses a handler through [proc(amount) -> Tx] and
    [rev(tx) -> bool], tests [isinstance(self.h, Cash)] and, for a [Cash]
    handler, calls [add(amount)] and [ret()].  A [Tx] is an object reference;
    its attributes [st] and [msg] are read through the state of the payment
    side, so a handler may update a transaction it created.  The workflow
    below is stated for every such handler. *)
Class Handler (Decimal : Type) : Type := mkHandler
  { TxStatus : Type;
    TxStatus_eq_dec :: EqDecision TxStatus;
    DONE : TxStatus;
    Tx : Type;
    hstate : Type;
    proc : Decimal → hstate → Tx * hstate;
    rev : Tx → hstate → bool * hstate;
    st : Tx → hstate → TxStatus;
    msg : Tx → hstate → option string;
    is_cash : bool;
    add : Decimal → hstate → hstate;
    ret : hstate → option Decimal * hstate }.

(** ** [class Sys] *)

(** The outcome of a call: a returned value or a raised [SysErr(e)]. *)
Inductive outcome (A : Type) : Type :=
  | Return (a : A)
  | Raise (e : string).
Arguments Return {A} _.
Arguments Raise {A} _.

Section Workflow.
Context {Price Decimal : Type}.
(** [Decimal(str(item.val))] *)
Variable to_decimal : Price → Decimal.
(** [Item.check] and [Item.mod]; the latter updates the item it is called
    on and reports whether a unit was dispensed. *)
Variable check : Item Price → bool.
Variable item_mod : Item Price → bool * Item Price.
Context `{Hd : Handler Decimal}.

(** Calls made to the handler, oldest first. *)
Inductive Call : Type :=
  | CProc (amt : Decimal)
  | CRev (tx : Tx)
  | CAdd (amt : Decimal)
  | CRet.

(** The attributes of a [Sys] object. *)
Record Sys : Type := mkSys
  { store : Store;
    h : hstate;
    _tx : option Tx }.

(** The machine state: the object memory, the [Sys] object, and the record
    of the handler calls made so far. *)
Record World : Type := mkWorld
  { objs : Heap Price;
    self : Sys;
    calls : list Call }.

(** Computations: state is kept when an error is raised; [None] marks a
    dereference of a location that holds no object. *)
Definition M (A : Type) : Type := World → option (outcome A * World).

Definition pure {A} (a : A) : M A := fun w => Some (Return a, w).
Definition raise {A} (e : string) : M A := fun w => Some (Raise e, w).
Definition bind {A B} (m : M A) (k : A → M B) : M B := fun w =>
  match m w with
  | None => None
  | Some (Return a, w') => k a w'
  | Some (Raise e, w') => Some (Raise e, w')
  end.

Notation "'let!' x ':=' m 'in' k" := (bind m (fun x => k))
  (at level 10, x pattern, m at level 100, k at level 200).
Notation "m ';;' k" := (bind m (fun _ => k))
  (at level 100, k at level 200, right associativity).

Definition with_h (f : hstate → hstate) (sy : Sys) : Sys :=
  {| store := store sy; h := f (h sy); _tx := _tx sy |}.
Definition with_tx (t : option Tx) (sy : Sys) : Sys :=
  {| store := store sy; h := h sy; _tx := t |}.

(** Reading [self._tx], and [self._tx = t]. *)
Definition get_tx : M (option Tx) := fun w => Some (Return (_tx (self w)), w).
Definition set_tx (t : option Tx) : M unit := fun w =>
  Some (Return tt, {| objs := objs w; self := with_tx t (self w);
                      calls := calls w |}).

(** A call [self.h.f(...)]: run [f] on the handler and record the call. *)
Definition call_h {A} (c : Call) (f : hstate → A * hstate) : M A := fun w =>
  let (a, h') := f (h (self w)) in
  Some (Return a, {| objs := objs w; self := with_h (fun _ => h') (self w);
                     calls := calls w ++ [c] |}).

Definition h_proc (amt : Decimal) : M Tx := call_h (CProc amt) (proc amt).
Definition h_rev (tx : Tx) : M bool := call_h (CRev tx) (rev tx).
Definition h_add (amt : Decimal) : M unit :=
  call_h (CAdd amt) (fun hs => (tt, add amt hs)).
Definition h_ret : M (option Decimal) := call_h CRet ret.

(** Reading [tx.st] and [tx.msg]. *)
Definition tx_st (tx : Tx) : M TxStatus := fun w =>
  Some (Return (st tx (h (self w))), w).
Definition tx_msg (tx : Tx) : M (option string) := fun w =>
  Some (Return (msg tx (h (self w))), w).

(** Reading the object at a location. *)
Definition deref (l : loc) : M (Item Price) := fun w =>
  match objs w !! l with
  | Some it => Some (Return it, w)
  | None => None
  end.

(** [item.mod()] on the object at [l]. *)
Definition call_mod (l : loc) : M bool := fun w =>
  match objs w !! l with
  | Some it =>
      let (ok, it') := item_mod it in
      Some (Return ok, {| objs := <[l := it']> (objs w); self := self w;
                          calls := calls w |})
  | None => None
  end.

(** [m or d] on an optional string: [None] and the empty string are falsy. *)
Definition str_or (m : option string) (d : string) : string :=
  match m with
  | Some EmptyString => d
  | Some s => s
  | None => d
  end.

(** [sorted(items, key=lambda x: x[0])]: a stable sort by position. *)
Fixpoint insert_by_pos (x : Z * loc) (l : list (Z * loc)) : list (Z * loc) :=
  match l with
  | [] => [x]
  | y :: l' => if x.1 <? y.1 then x :: y :: l' else y :: insert_by_pos x l'
  end.
Definition sorted_by_pos (l : list (Z * loc)) : list (Z * loc) :=
  fold_left (fun acc x => insert_by_pos x acc) l [].

(** [Sys.ls]: the valid items with their positions, sorted by position. *)
Definition Sys_ls : M (list (Z * loc)) := fun w =>
  match ls check (objs w) (store (self w)) with
  | None => None
  | Some ls_items =>
      match mapM (fun l => it ← objs w !! l; Some (l, it)) ls_items with
      | None => None
      | Some its =>
          let items :=
            omap (fun li : loc * Item Price =>
                    p ← find (code li.2) (store (self w)); Some (p, li.1))
                 its in
          Some (Return (sorted_by_pos items), w)
      end
  end.

(** [Sys.pick].  An [Item] object is truthy, so [not item] holds for [None]
    only. *)
Definition pick (pos : Z) : M loc := fun w =>
  match get_at pos (store (self w)) with
  | None => raise "invalid pos" w
  | Some item =>
      (let! it := deref item in
       if negb (check it) then raise "unavailable" else pure item) w
  end.

(** [Sys.add_money] *)
Definition add_money (amt : Decimal) : M unit :=
  if negb is_cash then raise "cash not supported" else h_add amt.

(** [Sys.buy] *)
Definition buy (pos : Z) : M (loc * option Decimal) :=
  let! item := pick pos in
  let! it := deref item in
  let! tx := h_proc (to_decimal (val it)) in
  set_tx (Some tx);;
  let! s := tx_st tx in
  if decide (s ≠ DONE) then
    let! m := tx_msg tx in raise (str_or m "tx failed")
  else
    let! ok := call_mod item in
    if negb ok then
      h_rev tx;; raise "dispense failed"
    else
      let! r := (if is_cash then h_ret else pure None) in
      pure (item, r).

(** [Sys.cancel].  A [Tx] object is truthy, so [not self._tx] holds for
    [None] only. *)
Definition cancel : M (option Decimal) :=
  let! t := get_tx in
  match t with
  | None => raise "no tx"
  | Some tx =>
      let! ok := h_rev tx in
      if negb ok then raise "rev failed"
      else
        let! r := (if is_cash then h_ret else pure None) in
        set_tx None;;
        pure r
  end.

(** [Sys.__init__], for a store of the default capacity and a handler
    state [h0]. *)
Definition Sys_init (h0 : hstate) : Sys :=
  {| store := Store_init 20; h := h0; _tx := None |}.
End Workflow.

(** ** Notions used by the statements *)

(** The number of occupied positions: [len(self._map)]. *)
Definition occupied (s : Store) : nat := Dict.len (_map s).

(** The positions that map to a code, in iteration order. *)
Definition positions_of (c : string) (s : Store) : list Z :=
  fst <$> filter (fun kv : Z * string => kv.2 = c) (Dict.items (_map s)).

(** A sequence of [put] calls, each with its item and optional position. *)
Fixpoint puts {Price : Type} (args : list (loc * option Z))
    (hp : Heap Price) (s : Store) : option (Heap Price * Store) :=
  match args with
  | [] => Some (hp, s)
  | (obj, pos) :: args' =>
      match put obj pos hp s with
      | Some (_, hp', s') => puts args' hp' s'
      | None => None
      end
  end.

(** What the store keeps true of its two dictionaries.  Each is a Python
    dict (one entry per key); positions lie in [0, cap); a code sits at one
    position at most; the codes of [_map] are exactly the keys of [_data]. *)
Record store_inv (s : Store) : Prop := mkStoreInv
  { inv_map_wf : Dict.wf (_map s);
    inv_data_wf : Dict.wf (_data s);
    inv_range : ∀ p, p ∈ Dict.keys (_map s) → 0 ≤ p < cap s;
    inv_one_pos : NoDup (Dict.values (_map s));
    inv_mapped : ∀ c, c ∈ Dict.values (_map s) ↔ c ∈ Dict.keys (_data s) }.

(** When [put obj pos] has no place for a new code. *)
Definition no_place (pos : option Z) (s : Store) : Prop :=
  match pos with
  | None => ∀ i, 0 ≤ i < cap s → Dict.mem i (_map s) = true
  | Some p => p < 0 ∨ p >= cap s ∨ Dict.mem p (_map s) = true
  end.

(** The [CRev] calls of a call record, with their transactions. *)
Definition reversals {Decimal : Type} `{Handler Decimal}
    (cs : list (Call (Decimal := Decimal))) : list Tx :=
  omap (fun c => match c with CRev tx => Some tx | _ => None end) cs.

(** The operations of the workflow, and one step of a client driving it. *)
Inductive Op (Decimal : Type) : Type :=
  | OLs
  | OPick (pos : Z)
  | OAddMoney (amt : Decimal)
  | OBuy (pos : Z)
  | OCancel.
Arguments OLs {Decimal}.
Arguments OPick {Decimal} _.
Arguments OAddMoney {Decimal} _.
Arguments OBuy {Decimal} _.
Arguments OCancel {Decimal}.

(** How a call resolved: [None] for a return, [Some e] for [SysErr(e)]. *)
Definition resolution {A : Type} (r : outcome A) : option string :=
  match r with Return _ => None | Raise e => Some e end.

Section Steps.
Context {Price Decimal : Type} (to_decimal : Price → Decimal)
  (check : Item Price → bool) (item_mod : Item Price → bool * Item Price)
  `{Hd : Handler Decimal}.

Definition forget {A : Type} (m : M (Price := Price) A) (w : World)
    : option (option string * World) :=
  match m w with
  | Some (r, w') => Some (resolution r, w')
  | None => None
  end.

(** The state in which [buy] checks the outcome of the payment: the handler
    has processed the price, and the transaction is the active one. *)
Definition paid (w : World (Price := Price)) (amt : Decimal) (tx : Tx)
    (hs : hstate) : World :=
  {| objs := objs w;
     self := {| store := store (self w); h := hs; _tx := Some tx |};
     calls := calls w ++ [CProc amt] |}.

Definition run_op (o : Op Decimal) : World → option (option string * World) :=
  match o with
  | OLs => forget (Sys_ls check)
  | OPick pos => forget (pick check pos)
  | OAddMoney amt => forget (add_money amt)
  | OBuy pos => forget (buy to_decimal check item_mod pos)
  | OCancel => forget cancel
  end.
End Steps.

(** ** A concrete machine, for the examples

    Prices and amounts are in cents.  Two handlers: a card with a remaining
    limit (not cash-capable) and a cash box with an inserted balance. *)

Module Demo.

Inductive Status : Type := Done | Failed.

#[export] Instance Status_eq_dec : EqDecision Status.
Proof. solve_decision. Defined.

Record DTx : Type := mkDTx
  { d_st : Status; d_amt : Z; d_msg : option string }.

Definition charge (amt funds : Z) : DTx * Z :=
  if bool_decide (amt ≤ funds) then (mkDTx Done amt None, funds - amt)
  else (mkDTx Failed amt (Some "insufficient funds"%string), funds).

Definition refund (tx : DTx) (funds : Z) : bool * Z :=
  match d_st tx with
  | Done => (true, funds + d_amt tx)
  | Failed => (false, funds)
  end.

Definition card : Handler Z :=
  {| TxStatus := Status; DONE := Done; Tx := DTx; hstate := Z;
     proc := charge; rev := refund;
     st := fun tx _ => d_st tx; msg := fun tx _ => d_msg tx;
     is_cash := false;
     add := fun _ funds => funds;
     ret := fun funds => (None, funds) |}.

Definition cash : Handler Z :=
  {| TxStatus := Status; DONE := Done; Tx := DTx; hstate := Z;
     proc := charge; rev := refund;
     st := fun tx _ => d_st tx; msg := fun tx _ => d_msg tx;
     is_cash := true;
     add := fun amt funds => funds + amt;
     ret := fun funds => (if bool_decide (0 < funds) then Some funds else None, 0) |}.

(** An item is valid while in stock; dispensing takes one unit. *)
Definition in_stock (it : Item Z) : bool := bool_decide (0 < count it).
Definition take_one (it : Item Z) : bool * Item Z :=
  if bool_decide (1 ≤ count it)
  then (true, {| code := code it; count := count it - 1; val := val it |})
  else (false, it).
(** A dispenser that is stuck: nothing comes out, the item is untouched. *)
Definition jammed (it : Item Z) : bool * Item Z := (false, it).

Definition cola : Item Z := {| code := "cola"; count := 2; val := 150 |}.
Definition more_cola : Item Z := {| code := "cola"; count := 3; val := 150 |}.
Definition chips : Item Z := {| code := "chips"; count := 1; val := 90 |}.

(** Three objects: [cola] at 0, [more_cola] at 1, [chips] at 2. *)
Definition memory : Heap Z :=
  <[0%nat := cola]> (<[1%nat := more_cola]> (<[2%nat := chips]> ∅)).

(** A store of capacity 1 holding [cola] at position 0. *)
Definition full1 : Store :=
  {| cap := 1; _data := [("cola"%string, 0%nat)]; _map := [(0, "cola"%string)] |}.

(** A store of capacity 5 holding [cola] at position 0. *)
Definition shelf : Store :=
  {| cap := 5; _data := [("cola"%string, 0%nat)]; _map := [(0, "cola"%string)] |}.

(** A store of capacity 5 holding [cola] at position 0 and [chips] at 1. *)
Definition shelf2 : Store :=
  {| cap := 5;
     _data := [("cola"%string, 0%nat); ("chips"%string, 2%nat)];
     _map := [(0, "cola"%string); (1, "chips"%string)] |}.

(** A machine with [shelf], the handler's funds and active transaction. *)
Definition machine `{Hd : Handler Z} (funds : hstate) (t : option Tx)
    : World (Price := Z) :=
  {| objs := memory;
     self := {| store := shelf; h := funds; _tx := t |};
     calls := [] |}.

(** The machine after a cash sale of [cola] at position 0 with 200 inserted:
    one unit is gone, 150 was charged and the rest returned as change. *)
Definition after_sale : World (Price := Z) (Hd := cash) :=
  {| objs := <[0%nat := {| code := "cola"; count := 1; val := 150 |}]> memory;
     self := mkSys (Hd := cash) shelf 0 (Some (mkDTx Done 150 None));
     calls := [CProc (Hd := cash) 150; CRet] |}.

(** The machine after a [cancel] of a paid [cola] with 50 left in the cash
    box: the 200 are returned and no transaction is active. *)
Definition refunded : World (Price := Z) (Hd := cash) :=
  {| objs := memory;
     self := mkSys (Hd := cash) shelf 0 None;
     calls := [CRev (Hd := cash) (mkDTx Done 150 None); CRet] |}.

(** The transactions a handler returns for [cola], with enough funds and
    with too little. *)
Definition approved : DTx := mkDTx Done 150 None.
Definition declined : DTx := mkDTx Failed 150 (Some "insufficient funds"%string).

End Demo.

(** ** Clients of the store and fresh machines *)

(** A call on a store: [put(obj, pos)] or [rm(code)]. *)
Inductive StoreOp : Type :=
  | SPut (obj : loc) (pos : option Z)
  | SRm (c : string).

(** A sequence of [put] and [rm] calls, results dropped. *)
Fixpoint run_store {Price : Type} (ops : list StoreOp)
    (hp : Heap Price) (s : Store) : option (Heap Price * Store) :=
  match ops with
  | [] => Some (hp, s)
  | SPut obj pos :: ops' =>
      match put obj pos hp s with
      | Some (_, hp', s') => run_store ops' hp' s'
      | None => None
      end
  | SRm c :: ops' => run_store ops' hp (rm c s).2
  end.

(** The order of [Sys.ls]: ascending positions. *)
Definition pos_le (x y : Z * loc) : Prop := x.1 ≤ y.1.

(** The machine right after [Sys(h)]: an empty store of capacity 20, no
    active transaction, no handler call made yet. *)
Definition fresh {Price Decimal : Type} `{Hd : Handler Decimal}
    (hp : Heap Price) (h0 : hstate) : World :=
  {| objs := hp; self := Sys_init h0; calls := [] |}.

(** The machine after its operator changed the store (through
    [sys.store.put] or [sys.store.rm]) and, with it, the objects. *)
Definition restock {Price Decimal : Type} `{Hd : Handler Decimal}
    (w : World (Price := Price)) (hp : Heap Price) (s : Store) : World :=
  {| objs := hp;
     self := {| store := s; h := h (self w); _tx := _tx (self w) |};
     calls := calls w |}.

(** Every stored item is filed under its own code: the entry of [_data]
    for a code refers to an object that has this code.  [put] files items
    that way; a client that rewrites the [code] of a stored item breaks
    it. *)
Definition keyed {Price : Type} (hp : Heap Price) (s : Store) : Prop :=
  ∀ c l, (c, l) ∈ _data s → ∃ it, hp !! l = Some it ∧ code it = c.

(** Strictly ascending positions. *)
Definition pos_lt (x y : Z * loc) : Prop := x.1 < y.1.

(** * Facts about dictionaries *)

Module DictFacts.
Section facts.
Context {K V : Type} `{EqDecision K}.
Implicit Types (k : K) (v : V) (d : Dict.t K V).

Lemma get_None k d : Dict.get k d = None ↔ k ∉ Dict.keys d.
Proof.
  induction d as [|[k' v'] d IH]; simpl.
  - split; [intros _; apply not_elem_of_nil | done].
  - rewrite not_elem_of_cons. destruct (decide (k = k')) as [->|Hne].
    + split; [done | intros [? _]; done].
    + rewrite IH. tauto.
Qed.

Lemma get_Some_elem k v d : Dict.get k d = Some v → (k, v) ∈ d.
Proof.
  induction d as [|[k' v'] d IH]; simpl; [done|].
  destruct (decide (k = k')) as [->|Hne].
  - intros [= ->]. apply list_elem_of_here.
  - intros Hg. apply list_elem_of_further; auto.
Qed.

Lemma elem_get k v d : Dict.wf d → (k, v) ∈ d → Dict.get k d = Some v.
Proof.
  unfold Dict.wf, Dict.keys.
  induction d as [|[k' v'] d IH]; simpl; intros Hnd Hin.
  - by apply elem_of_nil in Hin.
  - apply NoDup_cons in Hnd as [Hk' Hnd].
    apply elem_of_cons in Hin as [[= -> ->]|Hin].
    + by rewrite decide_True.
    + destruct (decide (k = k')) as [->|Hne]; [|auto].
      exfalso. apply Hk'. apply list_elem_of_fmap. by exists (k', v).
Qed.

Lemma mem_true k d : Dict.mem k d = true ↔ k ∈ Dict.keys d.
Proof.
  unfold Dict.mem. destruct (Dict.get k d) eqn:Hg.
  - split; [intros _|done].
    destruct (decide (k ∈ Dict.keys d)) as [|Hn]; [done|].
    apply get_None in Hn. congruence.
  - apply get_None in Hg. split; [done | intros; contradiction].
Qed.

Lemma mem_false k d : Dict.mem k d = false ↔ Dict.get k d = None.
Proof. unfold Dict.mem. destruct (Dict.get k d); split; congruence. Qed.

(** Storing under a new key appends an entry. *)
Lemma set_new k v d : Dict.get k d = None → Dict.set k v d = d ++ [(k, v)].
Proof.
  induction d as [|[k' v'] d IH]; simpl; [done|].
  destruct (decide (k = k')); [done|]. intros Hg. by rewrite IH.
Qed.

Lemma get_set_eq k v d : Dict.get k (Dict.set k v d) = Some v.
Proof.
  induction d as [|[k' v'] d IH]; simpl.
  - by rewrite decide_True.
  - destruct (decide (k = k')) as [->|Hne]; simpl.
    + by rewrite decide_True.
    + by rewrite decide_False.
Qed.

Lemma get_set_ne k k' v d :
  k ≠ k' → Dict.get k' (Dict.set k v d) = Dict.get k' d.
Proof.
  intros Hne. induction d as [|[k0 v0] d IH]; simpl.
  - by rewrite decide_False.
  - destruct (decide (k = k0)) as [->|Hne0]; simpl.
    + by rewrite !decide_False.
    + by rewrite IH.
Qed.

(** Deleting a key keeps exactly the entries of the other keys. *)
Lemma del_filter k d :
  Dict.del k d = filter (fun kv : K * V => kv.1 ≠ k) d.
Proof.
  induction d as [|[k' v'] d IH]; [done|].
  rewrite filter_cons. cbn [Dict.del fst]. rewrite IH.
  destruct (decide (k = k')) as [->|Hne].
  - by rewrite decide_False by tauto.
  - by rewrite decide_True by congruence.
Qed.

Lemma elem_of_del k k' v d : (k', v) ∈ Dict.del k d ↔ (k', v) ∈ d ∧ k' ≠ k.
Proof. rewrite del_filter, list_elem_of_filter. simpl. tauto. Qed.

Lemma del_sublist k d : Dict.del k d `sublist_of` d.
Proof. rewrite del_filter. apply sublist_filter. Qed.

Lemma get_del_eq k d : Dict.get k (Dict.del k d) = None.
Proof.
  apply get_None. unfold Dict.keys. intros Hin.
  apply list_elem_of_fmap in Hin as [[k' v] [Hk Hin]]. simpl in Hk. subst k'.
  apply elem_of_del in Hin as [_ Hne]. done.
Qed.

Lemma get_del_ne k k' d : k ≠ k' → Dict.get k' (Dict.del k d) = Dict.get k' d.
Proof.
  intros Hne. induction d as [|[k0 v0] d IH]; simpl; [done|].
  destruct (decide (k = k0)) as [->|Hne0]; simpl.
  - by rewrite decide_False by congruence.
  - by rewrite IH.
Qed.

Lemma keys_sublist d d' :
  d `sublist_of` d' → Dict.keys d `sublist_of` Dict.keys d'.
Proof. intros Hs. unfold Dict.keys, Dict.values. by apply fmap_sublist. Qed.

Lemma values_sublist d d' :
  d `sublist_of` d' → Dict.values d `sublist_of` Dict.values d'.
Proof. intros Hs. unfold Dict.keys, Dict.values. by apply fmap_sublist. Qed.

Lemma wf_set_new k v d : Dict.wf d → Dict.get k d = None → Dict.wf (Dict.set k v d).
Proof.
  unfold Dict.wf. intros Hwf Hg. rewrite set_new by done.
  unfold Dict.keys. rewrite fmap_app. simpl. apply NoDup_app.
  split; [done|]. split; [|apply NoDup_singleton].
  intros x Hx Hx'. apply list_elem_of_singleton in Hx'. subst x.
  by apply get_None in Hg.
Qed.
End facts.
End DictFacts.

(** * Facts about the store *)

Section StoreFacts.
Context {Price : Type}.
Implicit Types (hp : Heap Price) (s : Store) (obj : loc) (c : string).

(** ** The scan for a free position *)

Lemma find_seqZ_Some (f : Z → bool) (m n i : Z) :
  List.find f (seqZ m n) = Some i →
  m ≤ i < m + n ∧ f i = true ∧ ∀ j, m ≤ j < i → f j = false.
Proof.
  remember (Z.to_nat n) as k eqn:Hk. revert m n Hk.
  induction k as [|k IH]; intros m n Hk.
  - rewrite seqZ_nil by lia. discriminate.
  - rewrite seqZ_cons by lia. simpl. destruct (f m) eqn:Hfm.
    + intros [= <-]. repeat split; [lia | lia | done | intros; lia].
    + intros Hfind. apply IH in Hfind as (Hr & Hfi & Hlow); [|lia].
      repeat split; [lia | lia | done |].
      intros j Hj. destruct (decide (j = m)) as [->|]; [done|].
      apply Hlow. lia.
Qed.

Lemma find_seqZ_None (f : Z → bool) (m n : Z) :
  List.find f (seqZ m n) = None → ∀ j, m ≤ j < m + n → f j = false.
Proof.
  intros Hfind j Hj. eapply List.find_none; [exact Hfind|].
  apply list_elem_of_In, elem_of_seqZ. lia.
Qed.

Lemma find_all_false {A} (f : A → bool) (l : list A) :
  (∀ x, x ∈ l → f x = false) → List.find f l = None.
Proof.
  intros Hall. destruct (List.find f l) as [x|] eqn:Hfind; [|done].
  apply List.find_some in Hfind as [Hin Hfx].
  apply list_elem_of_In, Hall in Hin. congruence.
Qed.

Lemma free_slot_Some s i :
  free_slot s = Some i →
  0 ≤ i < cap s ∧ Dict.mem i (_map s) = false
  ∧ ∀ j, 0 ≤ j < i → Dict.mem j (_map s) = true.
Proof.
  unfold free_slot. intros Hfind.
  apply find_seqZ_Some in Hfind as (Hr & Hfi & Hlow).
  split; [lia|]. split; [by apply negb_true_iff|].
  intros j Hj. apply negb_false_iff, Hlow. lia.
Qed.

Lemma free_slot_None s :
  free_slot s = None ↔ ∀ j, 0 ≤ j < cap s → Dict.mem j (_map s) = true.
Proof.
  unfold free_slot. split.
  - intros Hfind j Hj. apply negb_false_iff.
    apply (find_seqZ_None _ _ _ Hfind). lia.
  - intros Hall. apply find_all_false. intros x Hx.
    apply elem_of_seqZ in Hx. apply negb_false_iff, Hall. lia.
Qed.

(** ** The loop of [rm] *)

Lemma elem_of_rm_loop c (snapshot : list (Z * string)) (m : Dict.t Z string) k v :
  (k, v) ∈ rm_loop c snapshot m ↔ (k, v) ∈ m ∧ (k, c) ∉ snapshot.
Proof.
  unfold rm_loop. revert m.
  induction snapshot as [|[k0 v0] snapshot IH]; intros m; simpl.
  - split; [intros ?; split; [done | apply not_elem_of_nil] | tauto].
  - rewrite IH, not_elem_of_cons. destruct (decide (v0 = c)) as [->|Hne].
    + rewrite DictFacts.elem_of_del. split.
      * intros [[? ?] ?]. repeat split; [done | congruence | done].
      * intros [? [Hk ?]]. repeat split; [done | congruence | done].
    + split; [intros [? ?] | tauto].
      repeat split; [done | congruence | done].
Qed.

Lemma rm_loop_sublist c (snapshot : list (Z * string)) (m : Dict.t Z string) :
  rm_loop c snapshot m `sublist_of` m.
Proof.
  unfold rm_loop. revert m.
  induction snapshot as [|[k0 v0] snapshot IH]; intros m; simpl; [done|].
  destruct (decide (v0 = c)); [|apply IH].
  etrans; [apply IH | apply DictFacts.del_sublist].
Qed.

Lemma rm_loop_no_code c (m : Dict.t Z string) :
  c ∉ Dict.values (rm_loop c (Dict.items m) m).
Proof.
  unfold Dict.values, Dict.items. intros Hin.
  apply list_elem_of_fmap in Hin as [[k v] [Hv Hin]]. simpl in Hv. subst v.
  apply elem_of_rm_loop in Hin as [Hin Hnot]. done.
Qed.

(** ** What [put] and [rm] preserve *)

Lemma store_inv_init (n : Z) : store_inv (Store_init n).
Proof.
  split; simpl.
  - apply NoDup_nil_2.
  - apply NoDup_nil_2.
  - intros p Hp. by apply elem_of_nil in Hp.
  - apply NoDup_nil_2.
  - intros c. by rewrite !elem_of_nil.
Qed.

Lemma store_inv_place p c obj s :
  store_inv s → 0 ≤ p < cap s → Dict.mem p (_map s) = false →
  Dict.get c (_data s) = None → store_inv (place p c obj s).
Proof.
  intros [Hmw Hdw Hr Hone Hmapped] Hp Hfree Hnew.
  apply DictFacts.mem_false in Hfree.
  split; simpl.
  - by apply DictFacts.wf_set_new.
  - by apply DictFacts.wf_set_new.
  - intros q. rewrite DictFacts.set_new by done.
    unfold Dict.keys. rewrite fmap_app, elem_of_app. simpl.
    rewrite list_elem_of_singleton. intros [Hq| ->]; [by apply Hr | done].
  - rewrite DictFacts.set_new by done.
    unfold Dict.values. rewrite fmap_app. simpl. apply NoDup_app.
    split; [done|]. split; [|apply NoDup_singleton].
    intros x Hx Hx'. apply list_elem_of_singleton in Hx'. subst x.
    apply Hmapped in Hx. by apply DictFacts.get_None in Hnew.
  - intros c'. rewrite !DictFacts.set_new by done.
    unfold Dict.values, Dict.keys. rewrite !fmap_app, !elem_of_app. simpl.
    rewrite !list_elem_of_singleton. specialize (Hmapped c').
    unfold Dict.values, Dict.keys in Hmapped. tauto.
Qed.

Lemma put_cap obj pos hp s b hp' s' :
  put obj pos hp s = Some (b, hp', s') → cap s' = cap s.
Proof.
  unfold put. intros Hput.
  destruct (hp !! obj) as [o|]; simpl in Hput; [|done].
  destruct (Dict.get (code o) (_data s)) as [curr|].
  - destruct (hp !! curr); simpl in Hput; [|done]. by injection Hput as _ _ <-.
  - destruct pos as [p|].
    + repeat case_match; by injection Hput as _ _ <-.
    + repeat case_match; by injection Hput as _ _ <-.
Qed.

Lemma store_inv_put obj pos hp s b hp' s' :
  put obj pos hp s = Some (b, hp', s') → store_inv s → store_inv s'.
Proof.
  unfold put. intros Hput Hinv.
  destruct (hp !! obj) as [o|]; simpl in Hput; [|done].
  destruct (Dict.get (code o) (_data s)) as [curr|] eqn:Hcode.
  - destruct (hp !! curr); simpl in Hput; [|done]. by injection Hput as _ _ <-.
  - destruct pos as [p|].
    + case_bool_decide as Hrange; [by injection Hput as _ _ <-|].
      destruct (Dict.mem p (_map s)) eqn:Hmem; [by injection Hput as _ _ <-|].
      injection Hput as _ _ <-. apply store_inv_place; [done | lia | done | done].
    + destruct (free_slot s) as [i|] eqn:Hfree; [|by injection Hput as _ _ <-].
      injection Hput as _ _ <-. apply free_slot_Some in Hfree as (? & ? & _).
      by apply store_inv_place.
Qed.

Lemma store_inv_rm c s : store_inv s → store_inv (rm c s).2.
Proof.
  intros Hinv. unfold rm. destruct (Dict.mem c (_data s)) eqn:Hmem; [|done].
  destruct Hinv as [Hmw Hdw Hr Hone Hmapped]. simpl.
  pose proof (rm_loop_sublist c (Dict.items (_map s)) (_map s)) as Hsub.
  split; simpl.
  - eapply sublist_NoDup; [exact Hmw | by apply DictFacts.keys_sublist].
  - eapply sublist_NoDup;
      [exact Hdw | apply DictFacts.keys_sublist, DictFacts.del_sublist].
  - intros p Hp. apply Hr.
    eapply elem_of_sublist; [exact Hp | by apply DictFacts.keys_sublist].
  - eapply sublist_NoDup; [exact Hone | by apply DictFacts.values_sublist].
  - intros c'. unfold Dict.values, Dict.keys. rewrite !list_elem_of_fmap. split.
    + intros [[k v] [-> Hin]]. simpl.
      apply elem_of_rm_loop in Hin as [Hin Hnot].
      assert (v ≠ c) as Hne by (intros ->; done).
      assert (v ∈ Dict.keys (_data s)) as Hk.
      { apply Hmapped. apply list_elem_of_fmap. by exists (k, v). }
      apply list_elem_of_fmap in Hk as [[v' l] [-> Hin']]. simpl in *.
      exists (v', l). split; [done|]. by apply DictFacts.elem_of_del.
    + intros [[k l] [-> Hin]]. simpl.
      apply DictFacts.elem_of_del in Hin as [Hin Hne].
      assert (k ∈ Dict.values (_map s)) as Hv.
      { apply Hmapped. apply list_elem_of_fmap. by exists (k, l). }
      apply list_elem_of_fmap in Hv as [[p k'] [-> Hin']]. simpl in *.
      exists (p, k'). split; [done|]. apply elem_of_rm_loop. split; [done|].
      intros Hc. apply (DictFacts.elem_get _ _ _ Hmw) in Hin'.
      apply (DictFacts.elem_get _ _ _ Hmw) in Hc. congruence.
Qed.

Lemma puts_inv (args : list (loc * option Z)) hp s hp' s' :
  puts args hp s = Some (hp', s') → store_inv s → store_inv s' ∧ cap s' = cap s.
Proof.
  revert hp s. induction args as [|[obj pos] args IH]; intros hp s; simpl.
  - by intros [= <- <-].
  - destruct (put obj pos hp s) as [[[b hp1] s1]|] eqn:Hput; [|done].
    intros Hrest Hinv. apply IH in Hrest as [? ?].
    + split; [done|]. erewrite <- (put_cap _ _ _ s); eauto.
    + by eapply store_inv_put.
Qed.

(** Distinct positions inside [0, cap) are at most [cap] many. *)
Lemma store_inv_occupied s : store_inv s → Z.of_nat (occupied s) ≤ Z.max 0 (cap s).
Proof.
  intros [Hmw _ Hr _ _]. unfold occupied, Dict.len.
  assert (length (Dict.keys (_map s)) ≤ length (seqZ 0 (cap s)))%nat as Hle.
  { apply submseteq_length, NoDup_submseteq; [done|].
    intros p Hp. apply elem_of_seqZ. apply Hr in Hp. lia. }
  unfold Dict.keys in Hle. rewrite length_fmap, length_seqZ in Hle. lia.
Qed.
End StoreFacts.

(** * The store: capacity, aggregation, placement, removal *)

Section StoreClaims.
Context {Price : Type}.
Implicit Types (hp : Heap Price) (s : Store) (obj : loc) (c : string).

Lemma place_lookups p c obj s :
  Dict.get p (_map (place p c obj s)) = Some c
  ∧ get c (place p c obj s) = Some obj
  ∧ get_at p (place p c obj s) = Some obj
  ∧ ∀ q, q ≠ p → Dict.get q (_map (place p c obj s)) = Dict.get q (_map s).
Proof.
  unfold get_at, get. simpl. rewrite !DictFacts.get_set_eq.
  repeat split. intros q Hq. by apply DictFacts.get_set_ne.
Qed.

Lemma put_no_place obj pos hp s (o : Item Price) :
  hp !! obj = Some o → Dict.get (code o) (_data s) = None →
  no_place pos s → put obj pos hp s = Some (false, hp, s).
Proof.
  intros Ho Hnew Hfull. unfold put. rewrite Ho. simpl. rewrite Hnew.
  destruct pos as [p|]; simpl in Hfull.
  - case_bool_decide as Hr; [done|].
    destruct Hfull as [Hlo|[Hhi|Hocc]]; [lia | lia | by rewrite Hocc].
  - apply free_slot_None in Hfull. by rewrite Hfull.
Qed.

Lemma one_entry (m : Dict.t Z string) c :
  NoDup (Dict.values m) → c ∈ Dict.values m →
  ∃ p, fst <$> filter (fun kv : Z * string => kv.2 = c) m = [p].
Proof.
  unfold Dict.values.
  induction m as [|[k v] m IH]; intros Hone Hmem;
    [by apply elem_of_nil in Hmem|].
  rewrite fmap_cons in Hone, Hmem. simpl in Hone, Hmem.
  apply NoDup_cons in Hone as [Hv Hone]. rewrite filter_cons. simpl.
  destruct (decide (v = c)) as [->|Hne].
  - exists k. rewrite fmap_cons. simpl. f_equal.
    assert (filter (fun kv : Z * string => kv.2 = c) m = []) as ->; [|done].
    apply elem_of_nil_inv. intros [k' v'] Hin.
    apply list_elem_of_filter in Hin as [Heq Hin].
    simpl in Heq. subst v'. apply Hv. apply list_elem_of_fmap. by exists (k', c).
  - apply elem_of_cons in Hmem as [Heq|Hmem]; [congruence|]. by apply IH.
Qed.

(** A code that is stored sits at exactly one position. *)
Lemma one_position c s :
  store_inv s → Dict.mem c (_data s) = true → ∃ p, positions_of c s = [p].
Proof.
  intros [_ _ _ Hone Hmapped] Hmem. apply DictFacts.mem_true, Hmapped in Hmem.
  by apply one_entry.
Qed.

(** C6, amended.  After any sequence of [put] calls on [Store(cap=n)] the
    number of occupied positions is at most [n], or 0 when [n] is negative;
    and a [put] of a new code that has no place (no free position in
    [0, n) when [pos] is omitted; an explicit [pos] out of range or occupied)
    returns [False] and changes neither the items, nor [_data], nor [_map]. *)
Theorem capacity_invariant (n : Z) (args : list (loc * option Z)) hp hp' s' :
  puts args hp (Store_init n) = Some (hp', s') →
  Z.of_nat (occupied s') ≤ Z.max 0 n
  ∧ (0 ≤ n → Z.of_nat (occupied s') ≤ n)
  ∧ ∀ obj pos (o : Item Price),
      hp' !! obj = Some o → Dict.get (code o) (_data s') = None →
      no_place pos s' → put obj pos hp' s' = Some (false, hp', s').
Proof.
  intros Hputs. apply puts_inv in Hputs as [Hinv Hcap]; [|apply store_inv_init].
  simpl in Hcap. apply store_inv_occupied in Hinv. rewrite Hcap in Hinv.
  split; [done|]. split; [lia|]. intros obj pos o. apply put_no_place.
Qed.

(** C7.  When the code of the incoming item is already stored, [put] returns
    [True], the stored item's count grows by the incoming count (also when
    the incoming item is the stored object itself), every other object and
    the whole store are as before, so no position is consumed; the code keeps
    the one position it had. *)
Theorem put_same_code_aggregates obj (pos : option Z) hp s (o it : Item Price) curr :
  hp !! obj = Some o → get (code o) s = Some curr → hp !! curr = Some it →
  ∃ hp',
    put obj pos hp s = Some (true, hp', s)
    ∧ (∃ it', hp' !! curr = Some it' ∧ count it' = count it + count o
              ∧ code it' = code it ∧ val it' = val it)
    ∧ (∀ l, l ≠ curr → hp' !! l = hp !! l)
    ∧ (store_inv s → ∃ p, positions_of (code o) s = [p]).
Proof.
  unfold get. intros Ho Hcode Hit.
  exists (<[curr := add_count (count o) it]> hp). repeat split.
  - unfold put. rewrite Ho. simpl. rewrite Hcode, Hit. done.
  - exists (add_count (count o) it). by rewrite lookup_insert_eq.
  - intros l Hl. by rewrite lookup_insert_ne.
  - intros Hinv. apply one_position; [done|].
    unfold Dict.mem. by rewrite Hcode.
Qed.

(** C8.  With a new code and [pos] omitted, [put] claims the least position
    of [0, cap) that is not in [_map] and returns [True]; when every position
    of that range is taken it returns [False] and changes nothing.  One of
    the two cases always applies. *)
Theorem put_new_code_scans obj hp s (o : Item Price) :
  hp !! obj = Some o → Dict.get (code o) (_data s) = None →
  (∀ i, 0 ≤ i < cap s → Dict.mem i (_map s) = false →
        (∀ j, 0 ≤ j < i → Dict.mem j (_map s) = true) →
        put obj None hp s = Some (true, hp, place i (code o) obj s)
        ∧ Dict.get i (_map (place i (code o) obj s)) = Some (code o)
        ∧ get_at i (place i (code o) obj s) = Some obj
        ∧ ∀ q, q ≠ i →
            Dict.get q (_map (place i (code o) obj s)) = Dict.get q (_map s))
  ∧ ((∀ i, 0 ≤ i < cap s → Dict.mem i (_map s) = true) →
     put obj None hp s = Some (false, hp, s))
  ∧ ((∃ i, 0 ≤ i < cap s ∧ Dict.mem i (_map s) = false
           ∧ ∀ j, 0 ≤ j < i → Dict.mem j (_map s) = true)
     ∨ ∀ i, 0 ≤ i < cap s → Dict.mem i (_map s) = true).
Proof.
  intros Ho Hnew. split; [|split].
  - intros i Hi Hfree_i Hlow.
    split; [|pose proof (place_lookups i (code o) obj s); tauto].
    unfold put. rewrite Ho. simpl. rewrite Hnew.
    destruct (free_slot s) as [i'|] eqn:Hfree.
    + apply free_slot_Some in Hfree as (Hr' & Hfree' & Hlow').
      destruct (Z.lt_trichotomy i i') as [Hlt|[->|Hgt]]; [|done|].
      * rewrite Hlow' in Hfree_i by lia. done.
      * rewrite Hlow in Hfree' by lia. done.
    + rewrite (proj1 (free_slot_None s) Hfree) in Hfree_i by lia. done.
  - intros Hfull. by apply (put_no_place obj None hp s o).
  - destruct (free_slot s) as [i|] eqn:Hfree.
    + left. exists i. by apply free_slot_Some.
    + right. by apply free_slot_None.
Qed.

(** C10.  When the code of the incoming item is already stored, the [pos]
    argument is never looked at: whatever it is (omitted, negative, beyond
    the capacity, or occupied), [put] returns [True], the count of the stored
    item becomes its old count plus the incoming count, the item keeps its
    code and price, every other object is as before, and [_map] and [_data]
    are as they were. *)
Theorem put_existing_code_ignores_pos obj hp s (o it : Item Price) curr :
  hp !! obj = Some o → get (code o) s = Some curr → hp !! curr = Some it →
  (∀ pos : option Z,
     put obj pos hp s = Some (true, <[curr := add_count (count o) it]> hp, s))
  ∧ (∀ p, p < 0 ∨ p >= cap s ∨ Dict.mem p (_map s) = true →
          ∃ hp' s', put obj (Some p) hp s = Some (true, hp', s')
                    ∧ _map s' = _map s ∧ _data s' = _data s
                    ∧ put obj (Some p) hp s = put obj None hp s)
  ∧ (∀ pos : option Z,
       ∃ hp' it',
         put obj pos hp s = Some (true, hp', s)
         ∧ hp' !! curr = Some it'
         ∧ count it' = count it + count o
         ∧ code it' = code it ∧ val it' = val it
         ∧ ∀ l, l ≠ curr → hp' !! l = hp !! l).
Proof.
  unfold get. intros Ho Hcode Hit.
  assert (∀ pos : option Z,
    put obj pos hp s = Some (true, <[curr := add_count (count o) it]> hp, s))
    as Hall.
  { intros pos. unfold put. rewrite Ho. simpl. rewrite Hcode, Hit. done. }
  split; [done|]. split.
  - intros p _.
    exists (<[curr := add_count (count o) it]> hp), s. by rewrite !Hall.
  - intros pos.
    exists (<[curr := add_count (count o) it]> hp), (add_count (count o) it).
    split; [apply Hall|]. split; [by rewrite lookup_insert_eq|].
    split; [done|]. split; [done|]. split; [done|].
    intros l Hl. by rewrite lookup_insert_ne.
Qed.
End StoreClaims.

(** * The workflow: payment, dispensing, reversal *)

Ltac unfold_sys :=
  unfold buy, pick, cancel, add_money, bind, pure, raise,
    deref, h_proc, h_rev, h_ret, h_add, call_h, call_mod, set_tx, get_tx,
    tx_st, tx_msg, with_h, with_tx; simpl.

Section WorkflowClaims.
Context {Price Decimal : Type} (to_decimal : Price → Decimal)
  (check : Item Price → bool) (item_mod : Item Price → bool * Item Price)
  `{Hd : Handler Decimal}.
Implicit Types (w : World (Price := Price)) (pos : Z) (item : loc)
  (it : Item Price) (tx : Tx) (hs : hstate).

Local Abbreviation buy_at := (buy to_decimal check item_mod).
Local Abbreviation pick_at := (pick check).

Lemma pick_returns pos w item it :
  get_at pos (store (self w)) = Some item → objs w !! item = Some it →
  check it = true → pick_at pos w = Some (Return item, w).
Proof. intros Hat Hit Hck. unfold_sys. by rewrite Hat, Hit, Hck. Qed.

Lemma pick_state pos w r w' : pick_at pos w = Some (r, w') → w' = w.
Proof.
  unfold_sys. destruct (get_at pos (store (self w))) as [item|]; [|congruence].
  destruct (objs w !! item) as [it|]; [|done].
  destruct (check it); simpl; congruence.
Qed.

(** [buy] up to the check of the payment's outcome. *)
Lemma buy_paid pos w item it tx hs :
  get_at pos (store (self w)) = Some item → objs w !! item = Some it →
  check it = true → proc (to_decimal (val it)) (h (self w)) = (tx, hs) →
  buy_at pos w =
    (if decide (st tx hs ≠ DONE) then
       raise (str_or (msg tx hs) "tx failed")
     else
       bind (call_mod item_mod item) (fun ok =>
         if negb ok then bind (h_rev tx) (fun _ => raise "dispense failed")
         else bind (if is_cash then h_ret else pure None)
                   (fun r => pure (item, r))))
      (paid w (to_decimal (val it)) tx hs).
Proof.
  intros Hat Hit Hck Hproc. unfold buy at 1.
  unfold bind at 1. rewrite (pick_returns pos w item it) by done.
  unfold bind at 1, deref at 1. rewrite Hit.
  unfold bind at 1, h_proc, call_h. rewrite Hproc.
  unfold bind at 1, set_tx. simpl.
  unfold bind at 1, tx_st. simpl.
  destruct (decide (st tx hs ≠ DONE)); [|reflexivity].
  unfold bind, tx_msg, raise. reflexivity.
Qed.

(** C1.  When [buy(pos)] returns an item (with its optional change), the
    transaction that the handler's [proc] produced for the item's price had
    the status [DONE], and it is the active transaction: no return without
    a payment that reached [DONE]. *)
Theorem buy_returns_only_after_done pos w item chg w' :
  buy_at pos w = Some (Return (item, chg), w') →
  ∃ it tx hs,
    get_at pos (store (self w)) = Some item
    ∧ objs w !! item = Some it
    ∧ proc (to_decimal (val it)) (h (self w)) = (tx, hs)
    ∧ st tx hs = DONE
    ∧ _tx (self w') = Some tx
    ∧ ∃ rest, calls w' = calls w ++ CProc (to_decimal (val it)) :: rest.
Proof.
  intros Hbuy.
  destruct (get_at pos (store (self w))) as [item'|] eqn:Hat;
    [|revert Hbuy; unfold_sys; by rewrite Hat].
  destruct (objs w !! item') as [it|] eqn:Hit;
    [|revert Hbuy; unfold_sys; by rewrite Hat, Hit].
  destruct (check it) eqn:Hck;
    [|revert Hbuy; unfold_sys; by rewrite Hat, Hit, Hck].
  destruct (proc (to_decimal (val it)) (h (self w))) as [tx hs] eqn:Hproc.
  rewrite (buy_paid pos w item' it tx hs) in Hbuy by done.
  destruct (decide (st tx hs ≠ DONE)) as [Hst|Hst]; [done|].
  apply dec_stable in Hst.
  revert Hbuy. unfold bind at 1, call_mod, paid. simpl. rewrite Hit.
  destruct (item_mod it) as [ok it'] eqn:Hmod. destruct ok; simpl.
  - unfold bind, pure. destruct is_cash.
    + unfold h_ret, call_h. simpl. destruct (ret hs) as [r hs'].
      intros [= -> <- <-]. exists it, tx, hs. simpl.
      repeat split; try done. exists [CRet]. by rewrite <- app_assoc.
    + intros [= -> <- <-]. exists it, tx, hs. simpl.
      repeat split; try done. by exists [].
  - unfold bind, h_rev, call_h, raise. simpl. by destruct (rev tx hs).
Qed.

(** C2.  When the payment reaches [DONE] and [item.mod()] returns [False],
    [buy] calls the handler's [rev] once, with the transaction that [proc]
    returned, and then raises [SysErr('dispense failed')].  The item is as
    [mod] left it and no other object changed: when [mod] keeps the count on
    failure, the count is the one from before the call. *)
Theorem buy_dispense_failed pos w item it tx hs it' :
  get_at pos (store (self w)) = Some item → objs w !! item = Some it →
  check it = true → proc (to_decimal (val it)) (h (self w)) = (tx, hs) →
  st tx hs = DONE → item_mod it = (false, it') →
  ∃ w',
    buy_at pos w = Some (Raise "dispense failed", w')
    ∧ calls w' = calls w ++ [CProc (to_decimal (val it)); CRev tx]
    ∧ reversals (calls w') = reversals (calls w) ++ [tx]
    ∧ h (self w') = (rev tx hs).2
    ∧ objs w' = <[item := it']> (objs w)
    ∧ (count it' = count it →
       ∃ now, objs w' !! item = Some now ∧ count now = count it)
    ∧ store (self w') = store (self w).
Proof.
  intros Hat Hit Hck Hproc Hst Hmod.
  rewrite (buy_paid pos w item it tx hs) by done.
  rewrite decide_False by (intros Hne; by apply Hne).
  unfold bind at 1, call_mod, paid. simpl. rewrite Hit, Hmod. simpl.
  unfold bind, h_rev, call_h, raise. simpl.
  destruct (rev tx hs) as [ok hs'] eqn:Hrev. eexists. split; [reflexivity|].
  simpl. repeat split.
  - by rewrite <- app_assoc.
  - unfold reversals. by rewrite <- app_assoc, omap_app.
  - intros Hcount. exists it'. by rewrite lookup_insert_eq.
Qed.

(** C3.  When the transaction that [proc] returns has a status other than
    [DONE], [buy] raises [SysErr] with the transaction's message, or with
    ['tx failed'] when the message is [None] or empty.  The transaction was
    stored before its status was looked at: it is the active transaction in
    the state the error leaves behind.  No object changed (so the item's
    count is as before), the store is as before, and [proc] is the only
    handler call made. *)
Theorem buy_tx_failed pos w item it tx hs :
  get_at pos (store (self w)) = Some item → objs w !! item = Some it →
  check it = true → proc (to_decimal (val it)) (h (self w)) = (tx, hs) →
  st tx hs ≠ DONE →
  ∃ e w',
    buy_at pos w = Some (Raise e, w')
    ∧ (∀ m, msg tx hs = Some m → m ≠ EmptyString → e = m)
    ∧ (msg tx hs = None ∨ msg tx hs = Some EmptyString → e = "tx failed"%string)
    ∧ _tx (self w') = Some tx
    ∧ objs w' = objs w
    ∧ store (self w') = store (self w)
    ∧ h (self w') = hs
    ∧ calls w' = calls w ++ [CProc (to_decimal (val it))].
Proof.
  intros Hat Hit Hck Hproc Hst.
  rewrite (buy_paid pos w item it tx hs) by done.
  rewrite decide_True by done. unfold raise.
  eexists _, _. split; [reflexivity|]. simpl. repeat split.
  - intros m -> Hm. by destruct m.
  - by intros [-> | ->].
Qed.

(** C5.  [cancel()] raises [SysErr('no tx')] when there is no active
    transaction, and calls nothing.  With an active transaction it calls
    [rev] on it; when [rev] reports failure it raises [SysErr('rev failed')]
    and the transaction stays active; when [rev] succeeds, the active
    transaction is cleared and the result is what [ret()] of a cash handler
    gives, or [None] for another handler. *)
Theorem cancel_spec w :
  (_tx (self w) = None → cancel w = Some (Raise "no tx", w))
  ∧ (∀ tx hs, _tx (self w) = Some tx → rev tx (h (self w)) = (false, hs) →
       ∃ w', cancel w = Some (Raise "rev failed", w')
             ∧ _tx (self w') = Some tx
             ∧ h (self w') = hs
             ∧ calls w' = calls w ++ [CRev tx])
  ∧ (∀ tx hs, _tx (self w) = Some tx → rev tx (h (self w)) = (true, hs) →
       ∃ w', cancel w
             = Some (Return (if is_cash then (ret hs).1 else None), w')
             ∧ _tx (self w') = None
             ∧ h (self w') = (if is_cash then (ret hs).2 else hs)
             ∧ calls w'
               = calls w ++ CRev tx :: (if is_cash then [CRet] else [])).
Proof.
  split; [|split].
  - intros Hnone. unfold_sys. rewrite Hnone. by destruct w.
  - intros tx hs Htx Hrev. unfold_sys. rewrite Htx, Hrev. simpl.
    eexists. split; [reflexivity|]. by simpl.
  - intros tx hs Htx Hrev. unfold_sys. rewrite Htx, Hrev. simpl.
    destruct is_cash; simpl.
    + destruct (ret hs) as [r hs'] eqn:Hret. simpl.
      eexists. split; [reflexivity|]. simpl. by rewrite <- app_assoc.
    + eexists. split; [reflexivity|]. by simpl.
Qed.

(** Once the payment is made, [buy] keeps the transaction active however it
    ends. *)
Lemma buy_keeps_tx pos w item it tx hs r w' :
  get_at pos (store (self w)) = Some item → objs w !! item = Some it →
  check it = true → proc (to_decimal (val it)) (h (self w)) = (tx, hs) →
  buy_at pos w = Some (r, w') → _tx (self w') = Some tx.
Proof.
  intros Hat Hit Hck Hproc. rewrite (buy_paid pos w item it tx hs) by done.
  destruct (decide (st tx hs ≠ DONE)) as [Hst|Hst].
  - unfold raise. by intros [= <- <-].
  - unfold bind at 1, call_mod, paid. simpl. rewrite Hit.
    destruct (item_mod it) as [ok it']. destruct ok; simpl.
    + unfold bind, pure. destruct is_cash.
      * unfold h_ret, call_h. simpl. destruct (ret hs). by intros [= <- <-].
      * by intros [= <- <-].
    + unfold bind, h_rev, call_h, raise. simpl. destruct (rev tx hs).
      by intros [= <- <-].
Qed.

(** C4, amended.  [_tx] changes in two ways only.  A [buy] that gets past
    [pick] makes the transaction returned by [proc] the active one, and it
    stays active however that [buy] ends (return, failed payment or failed
    dispense).  A [cancel] that returns clears it.  A [buy] that raises in
    [pick], a [cancel] that raises, [ls], [pick] and [add_money] leave [_tx]
    as it was. *)
Theorem tx_lifecycle (op : Op Decimal) w (r : option string) w' :
  run_op to_decimal check item_mod op w = Some (r, w') →
  match op with
  | OBuy pos =>
      (∃ e, pick_at pos w = Some (Raise e, w) ∧ r = Some e ∧ w' = w)
      ∨ (∃ item it,
           pick_at pos w = Some (Return item, w) ∧ objs w !! item = Some it
           ∧ _tx (self w')
             = Some (proc (to_decimal (val it)) (h (self w))).1)
  | OCancel =>
      match r with
      | None => _tx (self w') = None
      | Some _ => _tx (self w') = _tx (self w)
      end
  | OLs | OPick _ | OAddMoney _ => _tx (self w') = _tx (self w)
  end.
Proof.
  destruct op as [|pos|amt|pos|]; unfold run_op, forget.
  - unfold Sys_ls. destruct (ls check (objs w) (store (self w))); [|done].
    destruct (mapM _ _); [|done]. by intros [= _ <-].
  - destruct (pick_at pos w) as [[r0 w0]|] eqn:Hpick; [|done].
    intros [= _ <-]. by rewrite (pick_state _ _ _ _ Hpick).
  - unfold_sys. destruct is_cash; simpl; by intros [= _ <-].
  - destruct (buy_at pos w) as [[r0 w0]|] eqn:Hbuy; [|done].
    intros [= <- <-].
    destruct (get_at pos (store (self w))) as [item|] eqn:Hat.
    2:{ left. revert Hbuy. unfold_sys. rewrite Hat. intros [= <- <-]. eauto. }
    destruct (objs w !! item) as [it|] eqn:Hit.
    2:{ revert Hbuy. unfold_sys. by rewrite Hat, Hit. }
    destruct (check it) eqn:Hck.
    2:{ left. revert Hbuy. unfold_sys. rewrite Hat, Hit, Hck. simpl.
        intros [= <- <-]. eauto. }
    right. exists item, it.
    split; [by apply (pick_returns pos w item it)|]. split; [done|].
    destruct (proc (to_decimal (val it)) (h (self w))) as [tx hs] eqn:Hproc.
    simpl. by apply (buy_keeps_tx pos w item it tx hs r0 w0).
  - unfold_sys. destruct (_tx (self w)) as [tx|] eqn:Htx.
    + destruct (rev tx (h (self w))) as [ok hs]. destruct ok; simpl.
      * destruct is_cash; simpl.
        -- destruct (ret hs). by intros [= <- <-].
        -- by intros [= <- <-].
      * by intros [= <- <-].
    + intros [= <- <-]. done.
Qed.
End WorkflowClaims.

(** * The statements at work on the concrete machine *)

Section Examples.
Import Demo.

(** Scenario 1 of the specification: a store of capacity 1. *)
Example capacity_one :
  puts [(0%nat, Some 0)] memory (Store_init 1) = Some (memory, full1)
  ∧ put 2%nat (Some 0) memory full1 = Some (false, memory, full1)
  ∧ put 2%nat None memory full1 = Some (false, memory, full1)
  ∧ get_at 0 full1 = Some 0%nat.
Proof. repeat split; reflexivity. Qed.

(** Scenario 2 of the specification: two deliveries of the same code. *)
Example same_code_twice :
  ∃ hp s, puts [(0%nat, None); (1%nat, None)] memory (Store_init 5)
          = Some (hp, s)
          ∧ (count <$> (get "cola" s ≫= fun l => hp !! l)) = Some 5
          ∧ occupied s = 1%nat.
Proof. eexists _, _. split; [reflexivity|]. split; reflexivity. Qed.

(** The claim C6 as stated fails for a negative capacity: [Store(cap=-1)],
    with no [put] at all, has 0 occupied positions, and 0 exceeds -1. *)
Lemma capacity_negative :
  puts [] (∅ : Heap Z) (Store_init (-1)) = Some (∅, Store_init (-1))
  ∧ ¬ (Z.of_nat (occupied (Store_init (-1))) ≤ cap (Store_init (-1))).
Proof. split; [reflexivity|]. simpl. lia. Qed.

Lemma capacity_invariant_witness :
  Z.of_nat (occupied full1) ≤ Z.max 0 1
  ∧ put 2%nat None memory full1 = Some (false, memory, full1)
  ∧ put 2%nat (Some 0) memory full1 = Some (false, memory, full1)
  ∧ put 2%nat (Some 1) memory full1 = Some (false, memory, full1).
Proof.
  destruct (capacity_invariant 1 [(0%nat, Some 0)] memory memory full1 eq_refl)
    as (Hocc & _ & Hfull).
  split; [exact Hocc|]. split; [|split].
  - apply (Hfull 2%nat None chips); [reflexivity | reflexivity |].
    intros i Hi. assert (i = 0) as -> by (simpl in Hi; lia). reflexivity.
  - apply (Hfull 2%nat (Some 0) chips); [reflexivity | reflexivity |].
    right. right. reflexivity.
  - apply (Hfull 2%nat (Some 1) chips); [reflexivity | reflexivity |].
    right. left. simpl. lia.
Defined.

Lemma shelf_inv : store_inv shelf.
Proof.
  exact (proj1 (puts_inv [(0%nat, Some 0)] memory (Store_init 5) memory shelf
                         eq_refl (store_inv_init 5))).
Defined.

Lemma put_same_code_aggregates_witness :
  ∃ hp',
    put 1%nat None memory shelf = Some (true, hp', shelf)
    ∧ (∃ it', hp' !! 0%nat = Some it' ∧ count it' = 2 + 3
              ∧ code it' = "cola"%string ∧ val it' = 150)
    ∧ (∀ l, l ≠ 0%nat → hp' !! l = memory !! l)
    ∧ ∃ p, positions_of "cola" shelf = [p].
Proof.
  destruct (put_same_code_aggregates 1%nat None memory shelf more_cola cola 0%nat
              eq_refl eq_refl eq_refl) as (hp' & Hput & Hcount & Hrest & Hpos).
  exists hp'. split; [exact Hput|]. split; [exact Hcount|].
  split; [exact Hrest|]. exact (Hpos shelf_inv).
Defined.

Lemma put_new_code_scans_witness :
  put 2%nat None memory shelf = Some (true, memory, place 1 "chips" 2%nat shelf)
  ∧ get_at 1 (place 1 "chips" 2%nat shelf) = Some 2%nat
  ∧ put 2%nat None memory full1 = Some (false, memory, full1).
Proof.
  destruct (put_new_code_scans 2%nat memory shelf chips eq_refl eq_refl)
    as (Hfree & _ & _).
  destruct (Hfree 1) as (Hput & _ & Hat & _).
  { simpl. lia. }
  { reflexivity. }
  { intros j Hj. assert (j = 0) as -> by lia. reflexivity. }
  destruct (put_new_code_scans 2%nat memory full1 chips eq_refl eq_refl)
    as (_ & Hfull & _).
  split; [exact Hput|]. split; [exact Hat|].
  apply Hfull. intros i Hi. assert (i = 0) as -> by (simpl in Hi; lia).
  reflexivity.
Defined.

Lemma put_existing_code_ignores_pos_witness :
  put 1%nat (Some (-3)) memory shelf = put 1%nat None memory shelf
  ∧ put 1%nat (Some 7) memory shelf = put 1%nat None memory shelf
  ∧ put 1%nat (Some 0) memory shelf
    = Some (true, <[0%nat := add_count 3 cola]> memory, shelf)
  ∧ ∃ hp' it',
      put 1%nat (Some (-3)) memory shelf = Some (true, hp', shelf)
      ∧ hp' !! 0%nat = Some it'
      ∧ count it' = 5
      ∧ code it' = "cola"%string ∧ val it' = 150
      ∧ ∀ l, l ≠ 0%nat → hp' !! l = memory !! l.
Proof.
  destruct (put_existing_code_ignores_pos 1%nat memory shelf more_cola cola
              0%nat eq_refl eq_refl eq_refl) as (Hall & Hbad & Hcount).
  destruct (Hbad (-3)) as (? & ? & _ & _ & _ & Hneg); [left; lia|].
  destruct (Hbad 7) as (? & ? & _ & _ & _ & Hbig); [right; left; simpl; lia|].
  split; [exact Hneg|]. split; [exact Hbig|]. split; [exact (Hall (Some 0))|].
  exact (Hcount (Some (-3))).
Defined.
End Examples.

Section MachineExamples.
Import Demo.

Local Abbreviation card_machine := (machine (Hd := card)).
Local Abbreviation cash_machine := (machine (Hd := cash)).
Local Abbreviation price := (fun v : Z => v).

(** Scenario 5 and 6 of the specification. *)
Example cancel_idle :
  cancel (cash_machine 200 None) = Some (Raise "no tx", cash_machine 200 None).
Proof. reflexivity. Qed.

Example add_money_card :
  add_money 500 (card_machine 100 None)
  = Some (Raise "cash not supported", card_machine 100 None).
Proof. reflexivity. Qed.

Lemma buy_returns_only_after_done_witness :
  ∃ (it : Item Z) (tx : DTx) (hs : Z),
    get_at 0 shelf = Some 0%nat
    ∧ memory !! 0%nat = Some it
    ∧ charge (val it) 200 = (tx, hs)
    ∧ d_st tx = Done
    ∧ _tx (self after_sale) = Some tx
    ∧ ∃ rest, calls after_sale = [] ++ CProc (Hd := cash) (val it) :: rest.
Proof.
  exact (buy_returns_only_after_done (Hd := cash) price in_stock take_one
           0 (cash_machine 200 None) 0%nat (Some 50) after_sale eq_refl).
Defined.

Lemma buy_dispense_failed_witness :
  ∃ w',
    buy (Hd := cash) price in_stock jammed 0 (cash_machine 200 None)
    = Some (Raise "dispense failed", w')
    ∧ calls w' = [] ++ [CProc (Hd := cash) 150; CRev (Hd := cash) approved]
    ∧ reversals (calls w') = [] ++ [approved : Tx (Handler := cash)]
    ∧ h (self w') = (refund approved 50).2
    ∧ objs w' = <[0%nat := cola]> memory
    ∧ (count cola = count cola →
       ∃ now, objs w' !! 0%nat = Some now ∧ count now = count cola)
    ∧ store (self w') = shelf.
Proof.
  exact (buy_dispense_failed (Hd := cash) price in_stock jammed
           0 (cash_machine 200 None) 0%nat cola approved 50 cola
           eq_refl eq_refl eq_refl eq_refl eq_refl eq_refl).
Defined.

(** Scenario 3 of the specification. *)
Lemma buy_tx_failed_witness :
  ∃ e w',
    buy (Hd := card) price in_stock take_one 0 (card_machine 100 None)
    = Some (Raise e, w')
    ∧ (∀ m, Some "insufficient funds"%string = Some m → m ≠ EmptyString → e = m)
    ∧ (Some "insufficient funds"%string = None
       ∨ Some "insufficient funds"%string = Some EmptyString
       → e = "tx failed"%string)
    ∧ _tx (self w') = Some declined
    ∧ objs w' = memory
    ∧ store (self w') = shelf
    ∧ h (self w') = 100
    ∧ calls w' = [] ++ [CProc (Hd := card) 150].
Proof.
  apply (buy_tx_failed (Hd := card) price in_stock take_one
           0 (card_machine 100 None) 0%nat cola declined 100);
    [reflexivity | reflexivity | reflexivity | reflexivity | discriminate].
Defined.

(** The claim C4 as stated fails: a [buy] whose payment is declined raises,
    and the declined transaction is still the active one afterwards. *)
Lemma declined_payment_stays_active :
  _tx (self (card_machine 100 None)) = None
  ∧ run_op (Hd := card) price in_stock take_one (OBuy 0) (card_machine 100 None)
    = Some (Some "insufficient funds"%string,
            paid (card_machine 100 None) 150 declined 100)
  ∧ _tx (self (paid (card_machine 100 None) 150 declined 100)) ≠ None.
Proof. split; [reflexivity|]. split; [reflexivity | discriminate]. Qed.

Lemma tx_lifecycle_witness :
  (∃ e, pick in_stock 0 (card_machine 100 None)
        = Some (Raise e, card_machine 100 None)
        ∧ Some "insufficient funds"%string = Some e
        ∧ paid (card_machine 100 None) 150 declined 100 = card_machine 100 None)
  ∨ (∃ item it,
       pick in_stock 0 (card_machine 100 None)
       = Some (Return item, card_machine 100 None)
       ∧ memory !! item = Some it
       ∧ _tx (self (paid (card_machine 100 None) 150 declined 100))
         = Some (charge (val it) 100).1).
Proof.
  exact (tx_lifecycle (Hd := card) price in_stock take_one (OBuy 0)
           (card_machine 100 None) (Some "insufficient funds"%string)
           (paid (card_machine 100 None) 150 declined 100) eq_refl).
Defined.

Lemma cancel_spec_witness :
  cancel (cash_machine 200 None) = Some (Raise "no tx", cash_machine 200 None)
  ∧ (∃ w', cancel (cash_machine 200 (Some declined))
           = Some (Raise "rev failed", w')
           ∧ _tx (self w') = Some declined
           ∧ h (self w') = 200
           ∧ calls w' = [] ++ [CRev (Hd := cash) declined])
  ∧ (∃ w', cancel (cash_machine 50 (Some approved))
           = Some (Return (Some 200), w')
           ∧ _tx (self w') = None
           ∧ h (self w') = 0
           ∧ calls w' = [] ++ [CRev (Hd := cash) approved; CRet]).
Proof.
  split; [|split].
  - exact (proj1 (cancel_spec (cash_machine 200 None)) eq_refl).
  - exact (proj1 (proj2 (cancel_spec (cash_machine 200 (Some declined))))
             declined 200 eq_refl eq_refl).
  - exact (proj2 (proj2 (cancel_spec
                           (cash_machine 50 (Some approved))))
             approved 200 eq_refl eq_refl).
Defined.
End MachineExamples.

(** * More about the store: lookups, room, removal *)

Section ListMore.
Context {A : Type}.

Lemma find_app_list (f : A → bool) (l1 l2 : list A) :
  List.find f (l1 ++ l2)
  = match List.find f l1 with Some x => Some x | None => List.find f l2 end.
Proof.
  induction l1 as [|x l1 IH]; simpl; [done|]. by destruct (f x).
Qed.

Lemma filter_all (P : A → Prop) `{∀ x, Decision (P x)} (l : list A) :
  (∀ x, x ∈ l → P x) → filter P l = l.
Proof.
  induction l as [|x l IH]; intros Hall; [done|].
  rewrite filter_cons_True by (apply Hall; left).
  f_equal. apply IH. intros y Hy. apply Hall. by right.
Qed.

Lemma filter_ext_elem (P Q : A → Prop)
    `{∀ x, Decision (P x), ∀ x, Decision (Q x)} (l : list A) :
  (∀ x, x ∈ l → P x ↔ Q x) → filter P l = filter Q l.
Proof.
  induction l as [|x l IH]; intros Hiff; [done|].
  assert (filter P l = filter Q l) as Htl.
  { apply IH. intros y Hy. apply Hiff. by right. }
  rewrite !filter_cons, Htl.
  destruct (decide (P x)) as [HP|HP], (decide (Q x)) as [HQ|HQ]; try done.
  - exfalso. apply HQ, Hiff; [left | done].
  - exfalso. apply HP, Hiff; [left | done].
Qed.

Lemma find_filter (f : A → bool) (P : A → Prop) `{∀ x, Decision (P x)}
    (l : list A) :
  (∀ x, f x = true → P x) → List.find f (filter P l) = List.find f l.
Proof.
  intros Himp. induction l as [|x l IH]; [done|].
  rewrite filter_cons. simpl. destruct (decide (P x)) as [HP|HP]; simpl.
  - by rewrite IH.
  - destruct (f x) eqn:Hfx; [by apply Himp in Hfx | done].
Qed.
End ListMore.

Section StoreMore.
Context {Price : Type}.
Implicit Types (hp : Heap Price) (s : Store) (obj : loc) (c : string).

(** ** [find] *)

Lemma find_elem c s p : find c s = Some p → (p, c) ∈ _map s.
Proof.
  unfold find, Dict.items.
  destruct (List.find _ (_map s)) as [[k v]|] eqn:Hf; simpl; [|done].
  intros [= ->]. apply List.find_some in Hf as [Hin Hv].
  apply bool_decide_eq_true in Hv. simpl in Hv. subst v.
  by apply list_elem_of_In.
Qed.

Lemma find_None c s : find c s = None ↔ c ∉ Dict.values (_map s).
Proof.
  unfold find, Dict.items, Dict.values. split.
  - destruct (List.find _ (_map s)) as [kv|] eqn:Hf; simpl; [done|].
    intros _ Hin. apply list_elem_of_fmap in Hin as [[k v] [-> Hin]].
    apply list_elem_of_In in Hin.
    apply (List.find_none _ _ Hf) in Hin. simpl in Hin.
    by apply bool_decide_eq_false in Hin.
  - intros Hnot. rewrite find_all_false; [done|].
    intros [k v] Hin. apply bool_decide_eq_false. simpl. intros ->.
    apply Hnot. apply list_elem_of_fmap. by exists (k, c).
Qed.

(** ** The loop of [rm] removes exactly the entries of the code *)

Lemma rm_loop_as_filter c (snapshot : list (Z * string)) (m : Dict.t Z string) :
  rm_loop c snapshot m
  = filter (fun kv : Z * string => (kv.1, c) ∉ snapshot) m.
Proof.
  unfold rm_loop. revert m.
  induction snapshot as [|[k0 v0] snapshot IH]; intros m; simpl.
  - symmetry. apply filter_all. intros x _. apply not_elem_of_nil.
  - rewrite IH. destruct (decide (v0 = c)) as [->|Hne].
    + rewrite DictFacts.del_filter, list_filter_filter.
      apply list_filter_iff. intros [k v]. simpl.
      rewrite not_elem_of_cons. split.
      * intros [? ?]. split; [congruence | done].
      * intros [Hk ?]. split; [done | congruence].
    + apply list_filter_iff. intros [k v]. simpl.
      rewrite not_elem_of_cons. split; [|tauto].
      intros ?. split; [congruence | done].
Qed.

Lemma rm_loop_filter c (m : Dict.t Z string) :
  Dict.wf m →
  rm_loop c (Dict.items m) m = filter (fun kv : Z * string => kv.2 ≠ c) m.
Proof.
  intros Hwf. rewrite rm_loop_as_filter. unfold Dict.items.
  apply filter_ext_elem. intros [k v] Hin. simpl. split.
  - intros Hnot ->. done.
  - intros Hne Hc. apply (DictFacts.elem_get _ _ _ Hwf) in Hin, Hc. congruence.
Qed.
(** ** Removal is complete and removes nothing else *)

(** C9.  [rm(code)] returns [False] and changes nothing when the code is not
    in [_data].  Otherwise it returns [True] and removes just that code.  The
    entry of the code leaves [_data] and every other entry stays, in order:
    [get(code)] is [None] and every other code keeps its item.  No position
    of [_map] holds the code any more, so [find(code)] is [None].  And in a
    Python dict, where each position has one entry, [_map] loses exactly the
    entries that refer to the code: every other position keeps its code and
    its item, and [find] gives for every other code what it gave before. *)
Theorem rm_complete c s :
  match get c s with
  | None => rm c s = (false, s)
  | Some _ =>
      (rm c s).1 = true
      ∧ get c (rm c s).2 = None
      ∧ find c (rm c s).2 = None
      ∧ (c ∉ Dict.keys (_data (rm c s).2))
      ∧ (c ∉ Dict.values (_map (rm c s).2))
      ∧ (∀ p, Dict.get p (_map (rm c s).2) ≠ Some c)
      ∧ cap (rm c s).2 = cap s
      ∧ _data (rm c s).2
        = filter (fun kv : string * loc => kv.1 ≠ c) (_data s)
      ∧ (∀ c', c' ≠ c → get c' (rm c s).2 = get c' s)
      ∧ (Dict.wf (_map s) →
         _map (rm c s).2 = filter (fun kv : Z * string => kv.2 ≠ c) (_map s)
         ∧ (∀ c', c' ≠ c → find c' (rm c s).2 = find c' s)
         ∧ ∀ p c', Dict.get p (_map s) = Some c' → c' ≠ c →
             Dict.get p (_map (rm c s).2) = Some c'
             ∧ get_at p (rm c s).2 = get_at p s)
  end.
Proof.
  unfold get, rm, Dict.mem. destruct (Dict.get c (_data s)) as [l|]; [|done].
  simpl. pose proof (rm_loop_no_code c (_map s)) as Hno.
  assert (∀ c', c' ≠ c → Dict.get c' (Dict.del c (_data s))
                         = Dict.get c' (_data s)) as Hdata.
  { intros c' Hne. by apply DictFacts.get_del_ne. }
  split; [done|]. split; [apply DictFacts.get_del_eq|]. split.
  { unfold find. simpl. rewrite find_all_false; [done|].
    intros [k v] Hin. apply bool_decide_eq_false. simpl. intros ->.
    apply Hno. apply list_elem_of_fmap. by exists (k, c). }
  split; [apply DictFacts.get_None, DictFacts.get_del_eq|].
  split; [done|]. split.
  { intros p Hp. apply DictFacts.get_Some_elem in Hp.
    apply Hno. apply list_elem_of_fmap. by exists (p, c). }
  split; [done|]. split; [apply DictFacts.del_filter|].
  split; [done|]. intros Hwf.
  pose proof (rm_loop_filter c (_map s) Hwf) as Hmap.
  split; [done|]. split.
  - intros c' Hne. unfold find. simpl. rewrite Hmap. unfold Dict.items.
    rewrite find_filter; [done|].
    intros [k v] Hv. apply bool_decide_eq_true in Hv. simpl in *. congruence.
  - intros p c' Hp Hne.
    assert (Dict.get p (rm_loop c (Dict.items (_map s)) (_map s)) = Some c')
      as Hkept.
    { apply DictFacts.elem_get.
      - eapply sublist_NoDup; [exact Hwf|].
        apply DictFacts.keys_sublist, rm_loop_sublist.
      - rewrite Hmap. apply list_elem_of_filter.
        split; [done|]. by apply DictFacts.get_Some_elem. }
    split; [done|]. unfold get_at. simpl. rewrite Hkept, Hp. by apply Hdata.
Qed.

(** ** Lookups by code and by position agree *)

Lemma find_in_map c s (p : Z) :
  store_inv s → find c s = Some p →
  0 ≤ p < cap s ∧ Dict.get p (_map s) = Some c ∧ get_at p s = get c s.
Proof.
  intros Hinv Hf. apply find_elem in Hf.
  pose proof (DictFacts.elem_get _ _ _ (inv_map_wf s Hinv) Hf) as Hg.
  split; [|split; [done|]].
  - apply (inv_range s Hinv). apply list_elem_of_fmap. by exists (p, c).
  - unfold get_at, get. by rewrite Hg.
Qed.

Lemma stored_is_found c s (l : loc) :
  store_inv s → get c s = Some l → ∃ p, find c s = Some p.
Proof.
  intros Hinv Hl. destruct (find c s) as [p|] eqn:Hf; [by exists p|].
  exfalso. apply find_None in Hf. apply Hf, (inv_mapped s Hinv).
  apply DictFacts.mem_true. unfold Dict.mem, get in *. by rewrite Hl.
Qed.

(** X1.  In a store kept by [put] and [rm], [find] and [get_at] are inverse
    to each other on stored codes: a position found for a code lies in
    [0, cap), maps to that code, and [get_at] there gives what [get] gives
    for the code; every stored code is found at some position; a code that
    is not stored is found nowhere. *)
Theorem find_get_at c s :
  store_inv s →
  (∀ p, find c s = Some p →
        0 ≤ p < cap s ∧ Dict.get p (_map s) = Some c ∧ get_at p s = get c s)
  ∧ (∀ l, get c s = Some l → ∃ p, find c s = Some p ∧ get_at p s = Some l)
  ∧ (get c s = None → find c s = None).
Proof.
  intros Hinv. split; [|split].
  - intros p Hf. by apply find_in_map.
  - intros l Hl. destruct (stored_is_found c s l Hinv Hl) as [p Hf].
    exists p. split; [done|].
    destruct (find_in_map c s p Hinv Hf) as (_ & _ & ->). done.
  - intros Hnone. apply find_None. intros Hin.
    apply (inv_mapped s Hinv) in Hin. by apply DictFacts.get_None in Hnone.
Qed.

Lemma put_places obj (p : Z) hp s (o : Item Price) :
  hp !! obj = Some o → get (code o) s = None →
  0 ≤ p < cap s → Dict.get p (_map s) = None →
  put obj (Some p) hp s = Some (true, hp, place p (code o) obj s).
Proof.
  unfold get. intros Ho Hnew Hp Hfree.
  unfold put. rewrite Ho. simpl. rewrite Hnew.
  rewrite bool_decide_eq_false_2 by lia.
  unfold Dict.mem. by rewrite Hfree.
Qed.

Lemma find_placed (p : Z) c obj s :
  store_inv s → Dict.get c (_data s) = None → Dict.get p (_map s) = None →
  find c (place p c obj s) = Some p.
Proof.
  intros Hinv Hnew Hfree.
  unfold find, Dict.items. simpl. rewrite DictFacts.set_new by done.
  rewrite find_app_list, find_all_false.
  - simpl. by rewrite bool_decide_eq_true_2.
  - intros [k v] Hin. apply bool_decide_eq_false. simpl. intros ->.
    apply DictFacts.get_None in Hnew. apply Hnew.
    apply (inv_mapped s Hinv). apply list_elem_of_fmap. by exists (k, c).
Qed.

(** X2.  A [put] of a new code at an explicit position that is in range and
    free returns [True] without touching any object; afterwards the item is
    what [get_at] gives at that position and what [get] gives for its code,
    [find] gives the position back, and one more position is occupied. *)
Theorem put_at_roundtrip obj (p : Z) hp s (o : Item Price) :
  store_inv s → hp !! obj = Some o → get (code o) s = None →
  0 ≤ p < cap s → Dict.get p (_map s) = None →
  ∃ s', put obj (Some p) hp s = Some (true, hp, s')
        ∧ get_at p s' = Some obj
        ∧ get (code o) s' = Some obj
        ∧ find (code o) s' = Some p
        ∧ occupied s' = S (occupied s).
Proof.
  intros Hinv Ho Hnew Hp Hfree.
  exists (place p (code o) obj s). split; [|split; [|split; [|split]]].
  - by apply put_places.
  - apply place_lookups.
  - apply place_lookups.
  - by apply find_placed.
  - unfold occupied, Dict.len. simpl. rewrite DictFacts.set_new by done.
    rewrite length_app. simpl. lia.
Qed.

(** ** Room *)

(** X3.  In a store kept by [put] and [rm], a new code finds a place exactly
    when fewer than [cap] positions are occupied: with room, [put] without a
    position returns [True] and claims a position of [0, cap); without room,
    [put] returns [False] and changes nothing, whatever position is asked
    for. *)
Theorem put_iff_room obj hp s (o : Item Price) :
  store_inv s → hp !! obj = Some o → get (code o) s = None →
  (Z.of_nat (occupied s) < cap s →
   ∃ i, 0 ≤ i < cap s ∧ Dict.get i (_map s) = None
        ∧ put obj None hp s = Some (true, hp, place i (code o) obj s))
  ∧ (cap s ≤ Z.of_nat (occupied s) →
     ∀ pos, put obj pos hp s = Some (false, hp, s)).
Proof.
  unfold get. intros Hinv Ho Hnew.
  assert (∀ i, 0 ≤ i < cap s → Dict.mem i (_map s) = false →
               Z.of_nat (occupied s) < cap s) as Hroom.
  { intros i Hi Hfree.
    pose proof (store_inv_occupied _
      (store_inv_place i (code o) obj s Hinv Hi Hfree Hnew)) as Hle.
    unfold occupied, Dict.len in *. simpl in Hle.
    apply DictFacts.mem_false in Hfree.
    rewrite DictFacts.set_new, length_app in Hle by done. simpl in Hle. lia. }
  split.
  - intros Hlt. unfold put. rewrite Ho. simpl. rewrite Hnew.
    destruct (free_slot s) as [i|] eqn:Hfree.
    + apply free_slot_Some in Hfree as (Hi & Hmem & _).
      exists i. split; [done|]. split; [by apply DictFacts.mem_false | done].
    + exfalso. pose proof (proj1 (free_slot_None s) Hfree) as Hall.
      destruct Hinv as [Hmw _ _ _ _].
      assert (length (seqZ 0 (cap s)) ≤ length (Dict.keys (_map s)))%nat as Hle.
      { apply submseteq_length, NoDup_submseteq; [apply NoDup_seqZ|].
        intros j Hj. apply elem_of_seqZ in Hj.
        apply DictFacts.mem_true, Hall. lia. }
      unfold Dict.keys in Hle. rewrite length_fmap, length_seqZ in Hle.
      unfold occupied, Dict.len in Hlt. lia.
  - intros Hfull pos. apply (put_no_place obj pos hp s o); [done | done |].
    destruct pos as [p|]; simpl.
    + destruct (decide (p < 0)) as [|Hlo]; [by left|].
      destruct (decide (p >= cap s)) as [|Hhi]; [right; by left|].
      right. right. destruct (Dict.mem p (_map s)) eqn:Hmem; [done|].
      exfalso. assert (Z.of_nat (occupied s) < cap s); [|lia].
      apply (Hroom p); [lia | done].
    + intros i Hi. destruct (Dict.mem i (_map s)) eqn:Hmem; [done|].
      exfalso. assert (Z.of_nat (occupied s) < cap s); [|lia].
      by apply (Hroom i).
Qed.

(** ** What [put] never does *)

(** X4.  [put] never displaces anything: whatever it returns, every code
    that was stored still maps to the same item, every position still holds
    what it held, and every object keeps its code and price; when it returns
    [False], nothing at all has changed. *)
Theorem put_never_overwrites obj (pos : option Z) hp s (b : bool) hp' s' :
  put obj pos hp s = Some (b, hp', s') →
  (∀ c l, get c s = Some l → get c s' = Some l)
  ∧ (∀ p c, Dict.get p (_map s) = Some c → Dict.get p (_map s') = Some c)
  ∧ (∀ p l, get_at p s = Some l → get_at p s' = Some l)
  ∧ (∀ l it, hp !! l = Some it →
       ∃ it', hp' !! l = Some it' ∧ code it' = code it ∧ val it' = val it)
  ∧ (b = false → hp' = hp ∧ s' = s).
Proof.
  intros Hput.
  assert (∀ p c0, Dict.get p (_map s) = None →
            Dict.get c0 (_data s) = None →
    (∀ c l, get c s = Some l → get c (place p c0 obj s) = Some l)
    ∧ (∀ q c, Dict.get q (_map s) = Some c →
              Dict.get q (_map (place p c0 obj s)) = Some c)
    ∧ (∀ q l, get_at q s = Some l → get_at q (place p c0 obj s) = Some l))
    as Hplace.
  { intros p c0 Hfree Hnew.
    assert (∀ c l, get c s = Some l → get c (place p c0 obj s) = Some l) as Hd.
    { unfold get. simpl. intros c l Hl.
      rewrite DictFacts.get_set_ne; [done | congruence]. }
    assert (∀ q c, Dict.get q (_map s) = Some c →
              Dict.get q (_map (place p c0 obj s)) = Some c) as Hm.
    { simpl. intros q c Hq. rewrite DictFacts.get_set_ne; [done | congruence]. }
    split; [done|]. split; [done|].
    unfold get_at. intros q l.
    destruct (Dict.get q (_map s)) as [c|] eqn:Hq; [|done].
    intros Hl. rewrite (Hm q c Hq). by apply Hd. }
  assert (∀ l it, hp !! l = Some it →
            ∃ it', hp !! l = Some it' ∧ code it' = code it ∧ val it' = val it)
    as Hsame by eauto.
  revert Hput. unfold put.
  destruct (hp !! obj) as [o|] eqn:Ho; simpl; [|done].
  destruct (Dict.get (code o) (_data s)) as [curr|] eqn:Hcode.
  - destruct (hp !! curr) as [it0|] eqn:Hcurr; simpl; [|done].
    intros [= <- <- <-]. repeat split; try done.
    intros l it Hl. destruct (decide (l = curr)) as [->|Hne].
    + rewrite lookup_insert_eq. eexists. split; [done|].
      rewrite Hcurr in Hl. by injection Hl as <-.
    + rewrite lookup_insert_ne by done. eauto.
  - destruct pos as [p|].
    + case_bool_decide as Hr; [by intros [= <- <- <-]|].
      destruct (Dict.mem p (_map s)) eqn:Hmem; [by intros [= <- <- <-]|].
      intros [= <- <- <-]. apply DictFacts.mem_false in Hmem.
      destruct (Hplace p (code o)) as (? & ? & ?); [done | done |].
      repeat split; done.
    + destruct (free_slot s) as [i|] eqn:Hfree; [|by intros [= <- <- <-]].
      intros [= <- <- <-]. apply free_slot_Some in Hfree as (_ & Hmem & _).
      apply DictFacts.mem_false in Hmem.
      destruct (Hplace i (code o)) as (? & ? & ?); [done | done |].
      repeat split; done.
Qed.
(** ** Removal *)

Lemma rm_cap c s : cap (rm c s).2 = cap s.
Proof. unfold rm. by destruct (Dict.mem c (_data s)). Qed.

(** X5.  In a store kept by [put] and [rm], [rm(code)] leaves every other
    code alone: [get] and [find] give for it what they gave before, and the
    position that held it still holds it. *)
Theorem rm_keeps_others c c' s :
  store_inv s → c' ≠ c →
  get c' (rm c s).2 = get c' s
  ∧ find c' (rm c s).2 = find c' s
  ∧ ∀ p, Dict.get p (_map s) = Some c' →
         Dict.get p (_map (rm c s).2) = Some c'
         ∧ get_at p (rm c s).2 = get_at p s.
Proof.
  intros Hinv Hne. pose proof (inv_map_wf s Hinv) as Hmw.
  unfold rm. destruct (Dict.mem c (_data s)) eqn:Hmem; [|done]. simpl.
  assert (get c' {| cap := cap s; _data := Dict.del c (_data s);
                    _map := rm_loop c (Dict.items (_map s)) (_map s) |}
          = get c' s) as Hget.
  { unfold get. simpl. by apply DictFacts.get_del_ne. }
  split; [done|]. split.
  - unfold find. simpl. rewrite rm_loop_filter by done. unfold Dict.items.
    rewrite find_filter; [done|].
    intros [k v] Hv. apply bool_decide_eq_true in Hv. simpl in *. congruence.
  - intros p Hp.
    assert (Dict.get p (rm_loop c (Dict.items (_map s)) (_map s)) = Some c')
      as Hkept.
    { apply DictFacts.elem_get.
      - eapply sublist_NoDup; [exact Hmw|].
        apply DictFacts.keys_sublist, rm_loop_sublist.
      - rewrite rm_loop_filter by done. apply list_elem_of_filter.
        split; [done|]. by apply DictFacts.get_Some_elem. }
    split; [done|]. unfold get_at. simpl. rewrite Hkept, Hp. exact Hget.
Qed.

(** X6.  In a store kept by [put] and [rm], removing a stored code frees
    exactly its position: one position fewer is occupied, [get_at] gives
    nothing there, and a [put] of any code that is not stored (the removed
    one included) at that position returns [True] and is found there. *)
Theorem rm_frees_position c s (p : Z) (l : loc) :
  store_inv s → get c s = Some l → find c s = Some p →
  S (occupied (rm c s).2) = occupied s
  ∧ Dict.get p (_map (rm c s).2) = None
  ∧ get_at p (rm c s).2 = None
  ∧ ∀ hp obj (o : Item Price),
      hp !! obj = Some o → get (code o) (rm c s).2 = None →
      ∃ s', put obj (Some p) hp (rm c s).2 = Some (true, hp, s')
            ∧ get_at p s' = Some obj ∧ find (code o) s' = Some p.
Proof.
  intros Hinv Hl Hf. pose proof (inv_map_wf s Hinv) as Hmw.
  pose proof (store_inv_rm c s Hinv) as Hinv'.
  destruct (find_in_map c s p Hinv Hf) as (Hp & Hpc & _).
  assert (_map (rm c s).2 = filter (fun kv : Z * string => kv.2 ≠ c) (_map s))
    as Hmap.
  { unfold rm, get, Dict.mem in *. rewrite Hl. simpl. by apply rm_loop_filter. }
  assert (Dict.get p (_map (rm c s).2) = None) as Hfree.
  { apply DictFacts.get_None. unfold Dict.keys. intros Hin.
    apply list_elem_of_fmap in Hin as [[k v] [Hk Hin]]. simpl in Hk. subst k.
    rewrite Hmap in Hin. apply list_elem_of_filter in Hin as [Hv Hin].
    simpl in Hv. apply (DictFacts.elem_get _ _ _ Hmw) in Hin. congruence. }
  split; [|split; [done|split]].
  - unfold occupied, Dict.len. rewrite Hmap.
    destruct (one_position c s Hinv) as [q Hq].
    { unfold Dict.mem, get in *. by rewrite Hl. }
    unfold positions_of, Dict.items in Hq.
    apply (f_equal length) in Hq. rewrite length_fmap in Hq. simpl in Hq.
    pose proof (filter_app_complement
                  (fun kv : Z * string => kv.2 = c) (_map s)) as Hperm.
    apply Permutation_length in Hperm. rewrite length_app in Hperm.
    lia.
  - unfold get_at. by rewrite Hfree.
  - intros hp obj o Ho Hnew.
    exists (place p (code o) obj (rm c s).2). split; [|split].
    + apply put_places; [done | done | by rewrite rm_cap | done].
    + apply place_lookups.
    + by apply find_placed.
Qed.

(** ** Any mix of [put] and [rm] *)

Lemma run_store_inv (ops : list StoreOp) hp s hp' s' :
  run_store ops hp s = Some (hp', s') → store_inv s →
  store_inv s' ∧ cap s' = cap s.
Proof.
  revert hp s. induction ops as [|[obj pos|c] ops IH]; intros hp s; simpl.
  - by intros [= <- <-].
  - destruct (put obj pos hp s) as [[[b hp1] s1]|] eqn:Hput; [|done].
    intros Hrest Hinv. apply IH in Hrest as [? ?].
    + split; [done|]. erewrite <- (put_cap _ _ _ s); eauto.
    + by eapply store_inv_put.
  - intros Hrest Hinv. apply IH in Hrest as [? ?].
    + split; [done|]. by rewrite <- (rm_cap c s).
    + by apply store_inv_rm.
Qed.

(** X7.  After any sequence of [put] and [rm] calls on [Store(cap=n)], the
    two dictionaries agree: every mapped position lies in [0, n) and refers
    to a stored code, so [get_at] gives an item there; every stored code sits
    at exactly one position; and at most [max(n, 0)] positions are
    occupied. *)
Theorem store_consistent (n : Z) (ops : list StoreOp) hp hp' s' :
  run_store ops hp (Store_init n) = Some (hp', s') →
  cap s' = n
  ∧ Z.of_nat (occupied s') ≤ Z.max 0 n
  ∧ (∀ p c, Dict.get p (_map s') = Some c →
            0 ≤ p < n ∧ ∃ l, get c s' = Some l ∧ get_at p s' = Some l)
  ∧ (∀ c l, get c s' = Some l → ∃ p, positions_of c s' = [p]).
Proof.
  intros Hrun.
  apply run_store_inv in Hrun as [Hinv Hcap]; [|apply store_inv_init].
  simpl in Hcap. split; [done|]. split; [|split].
  - rewrite <- Hcap. by apply store_inv_occupied.
  - intros p c Hp. split.
    + rewrite <- Hcap. apply (inv_range s' Hinv).
      apply list_elem_of_fmap. exists (p, c).
      split; [done | by apply DictFacts.get_Some_elem].
    + assert (c ∈ Dict.keys (_data s')) as Hk.
      { apply (inv_mapped s' Hinv). apply list_elem_of_fmap. exists (p, c).
        split; [done | by apply DictFacts.get_Some_elem]. }
      unfold get_at, get. rewrite Hp.
      destruct (Dict.get c (_data s')) as [l|] eqn:Hg; [by exists l|].
      by apply DictFacts.get_None in Hg.
  - intros c l Hl. apply one_position; [done|].
    unfold Dict.mem, get in *. by rewrite Hl.
Qed.

(** ** Listing *)

Lemma deref_all hp (vals : list loc) :
  (∀ l, l ∈ vals → is_Some (hp !! l)) →
  ∃ its : list (loc * Item Price),
    mapM (fun l => it ← hp !! l; Some (l, it)) vals = Some its
    ∧ fst <$> its = vals
    ∧ ∀ x it, (x, it) ∈ its → hp !! x = Some it.
Proof.
  induction vals as [|v vals IH]; intros Hall.
  - exists []. split; [done|]. split; [done|].
    intros x it Hin. by apply elem_of_nil in Hin.
  - destruct IH as (its & Hm & Hfst & Hits).
    { intros l Hl. apply Hall. by right. }
    destruct (Hall v) as [it Hv]; [by left|].
    exists ((v, it) :: its). split; [|split].
    + simpl. rewrite Hv. simpl. rewrite Hm. done.
    + by rewrite fmap_cons, Hfst.
    + intros x it' Hin. apply elem_of_cons in Hin as [[= -> ->]|Hin]; eauto.
Qed.

(** X8.  [Store.ls] gives the stored items that pass their validity check,
    in the order of [_data]: nothing invalid is listed and nothing valid is
    left out. *)
Theorem ls_valid_items (check : Item Price → bool) hp s :
  (∀ l, l ∈ Dict.values (_data s) → is_Some (hp !! l)) →
  ∃ r, ls check hp s = Some r
       ∧ r `sublist_of` Dict.values (_data s)
       ∧ ∀ l, l ∈ r ↔ l ∈ Dict.values (_data s)
                      ∧ ∃ it, hp !! l = Some it ∧ check it = true.
Proof.
  intros Hall. destruct (deref_all hp _ Hall) as (its & Hm & Hfst & Hits).
  unfold ls. rewrite Hm. simpl. eexists. split; [done|]. split.
  - rewrite <- Hfst. apply fmap_sublist, sublist_filter.
  - intros l. rewrite list_elem_of_fmap. split.
    + intros [[x it] [-> Hin]]. apply list_elem_of_filter in Hin as [Hck Hin].
      simpl in *. split.
      * rewrite <- Hfst. apply list_elem_of_fmap. by exists (x, it).
      * exists it. split; [by apply Hits | done].
    + intros [Hin [it [Hl Hck]]]. rewrite <- Hfst in Hin.
      apply list_elem_of_fmap in Hin as [[x it'] [-> Hin]]. simpl in *.
      exists (x, it'). split; [done|]. apply list_elem_of_filter.
      split; [|done]. simpl. apply Hits in Hin. congruence.
Qed.
End StoreMore.

(** * More about the workflow *)

Section SortMore.

Lemma insert_by_pos_perm x l : insert_by_pos x l ≡ₚ x :: l.
Proof.
  induction l as [|y l IH]; simpl; [done|].
  destruct (x.1 <? y.1); [done|]. rewrite IH. apply Permutation_swap.
Qed.

Lemma insert_by_pos_sorted x l :
  StronglySorted pos_le l → StronglySorted pos_le (insert_by_pos x l).
Proof.
  induction l as [|y l IH]; simpl; intros Hs.
  - by repeat constructor.
  - apply StronglySorted_inv in Hs as [Hs Hall].
    destruct (x.1 <? y.1) eqn:Hlt.
    + apply Z.ltb_lt in Hlt. constructor; [by constructor|].
      constructor; [unfold pos_le; lia|].
      eapply Forall_impl; [exact Hall|]. unfold pos_le. intros z Hz. lia.
    + apply Z.ltb_ge in Hlt. constructor; [by apply IH|].
      rewrite insert_by_pos_perm. by constructor.
Qed.

Lemma sorted_by_pos_spec l :
  StronglySorted pos_le (sorted_by_pos l) ∧ sorted_by_pos l ≡ₚ l.
Proof.
  unfold sorted_by_pos.
  assert (∀ acc, StronglySorted pos_le acc →
    StronglySorted pos_le (fold_left (fun acc x => insert_by_pos x acc) l acc)
    ∧ fold_left (fun acc x => insert_by_pos x acc) l acc ≡ₚ acc ++ l) as Hgen.
  { induction l as [|x l IH]; intros acc Hacc; simpl.
    - split; [done | by rewrite app_nil_r].
    - destruct (IH (insert_by_pos x acc)) as [Hs Hp];
        [by apply insert_by_pos_sorted|].
      split; [done|]. rewrite Hp, insert_by_pos_perm. simpl.
      apply Permutation_middle. }
  apply (Hgen []). constructor.
Qed.
End SortMore.

Section WorkflowMore.
Context {Price Decimal : Type} (to_decimal : Price → Decimal)
  (check : Item Price → bool) (item_mod : Item Price → bool * Item Price)
  `{Hd : Handler Decimal}.
Implicit Types (w : World (Price := Price)) (pos : Z) (item : loc)
  (it : Item Price) (tx : Tx) (hs : hstate).

Local Abbreviation buy_at := (buy to_decimal check item_mod).
Local Abbreviation pick_at := (pick check).

(** The worlds in which [buy] can end once the payment is made. *)
Lemma buy_after_payment pos w item it tx hs :
  get_at pos (store (self w)) = Some item → objs w !! item = Some it →
  check it = true → proc (to_decimal (val it)) (h (self w)) = (tx, hs) →
  let amt := to_decimal (val it) in
  let it' := (item_mod it).2 in
  buy_at pos w =
    if decide (st tx hs ≠ DONE) then
      Some (Raise (str_or (msg tx hs) "tx failed"), paid w amt tx hs)
    else if (item_mod it).1 then
      Some (Return (item, if is_cash then (ret hs).1 else None),
            {| objs := <[item := it']> (objs w);
               self := {| store := store (self w);
                          h := (if is_cash then (ret hs).2 else hs);
                          _tx := Some tx |};
               calls := calls w ++ CProc amt
                          :: (if is_cash then [CRet] else []) |})
    else
      Some (Raise "dispense failed",
            {| objs := <[item := it']> (objs w);
               self := {| store := store (self w);
                          h := (rev tx hs).2;
                          _tx := Some tx |};
               calls := calls w ++ [CProc amt; CRev tx] |}).
Proof.
  intros Hat Hit Hck Hproc amt it'.
  rewrite (buy_paid to_decimal check item_mod pos w item it tx hs) by done.
  destruct (decide (st tx hs ≠ DONE)) as [Hst|Hst]; [done|].
  unfold bind at 1, call_mod, paid. simpl. rewrite Hit. subst it'.
  destruct (item_mod it) as [ok it1]. destruct ok; simpl.
  - unfold bind, pure. destruct is_cash.
    + unfold h_ret, call_h. simpl. destruct (ret hs) as [r hs']. simpl.
      by rewrite <- app_assoc.
    + done.
  - unfold bind, h_rev, call_h, raise. simpl. destruct (rev tx hs). simpl.
    by rewrite <- app_assoc.
Qed.

(** How [pick] can end. *)
Lemma pick_cases pos w :
  (get_at pos (store (self w)) = None
   ∧ pick_at pos w = Some (Raise "invalid pos", w))
  ∨ (∃ item, get_at pos (store (self w)) = Some item
             ∧ objs w !! item = None ∧ pick_at pos w = None)
  ∨ (∃ item it, get_at pos (store (self w)) = Some item
                ∧ objs w !! item = Some it ∧ check it = false
                ∧ pick_at pos w = Some (Raise "unavailable", w))
  ∨ (∃ item it, get_at pos (store (self w)) = Some item
                ∧ objs w !! item = Some it ∧ check it = true
                ∧ pick_at pos w = Some (Return item, w)).
Proof.
  unfold_sys. destruct (get_at pos (store (self w))) as [item|]; [|by left].
  right. destruct (objs w !! item) as [it|] eqn:Hit; [|left; by exists item].
  right. destruct (check it) eqn:Hck; [right|left]; exists item, it; by simpl.
Qed.

Lemma buy_pick_raises pos w (e : string) :
  pick_at pos w = Some (Raise e, w) → buy_at pos w = Some (Raise e, w).
Proof. intros Hpick. unfold buy. unfold bind at 1. by rewrite Hpick. Qed.

Lemma buy_pick_stuck pos w : pick_at pos w = None → buy_at pos w = None.
Proof. intros Hpick. unfold buy. unfold bind at 1. by rewrite Hpick. Qed.

(** X9.  [pick] changes nothing and ends in one of three ways: it returns
    the item at the position, which exists and passes its check; it raises
    ['invalid pos'] because [get_at] gives nothing there; or it raises
    ['unavailable'] because the item there fails its check. *)
Theorem pick_outcomes pos w (r : outcome loc) w' :
  pick_at pos w = Some (r, w') →
  w' = w
  ∧ match r with
    | Return item =>
        get_at pos (store (self w)) = Some item
        ∧ ∃ it, objs w !! item = Some it ∧ check it = true
    | Raise e =>
        (e = "invalid pos"%string ∧ get_at pos (store (self w)) = None)
        ∨ (e = "unavailable"%string
           ∧ ∃ item it, get_at pos (store (self w)) = Some item
                        ∧ objs w !! item = Some it ∧ check it = false)
    end.
Proof.
  destruct (pick_cases pos w)
    as [[Hat ->]|[(item & _ & _ & ->)|[(item & it & Hat & Hit & Hck & ->)
       |(item & it & Hat & Hit & Hck & ->)]]].
  - intros [= <- <-]. split; [done|]. by left.
  - done.
  - intros [= <- <-]. split; [done|]. right. split; [done|]. eauto.
  - intros [= <- <-]. split; [done|]. split; [done|]. eauto.
Qed.

(** X10.  [add_money] on a handler that is not [Cash] raises
    ['cash not supported'] and changes nothing, the handler included; on a
    [Cash] handler it makes the one call [add(amt)] and changes nothing
    else. *)
Theorem add_money_outcomes (amt : Decimal) w :
  (is_cash = false →
   add_money amt w = Some (Raise "cash not supported", w))
  ∧ (is_cash = true →
     ∃ w', add_money amt w = Some (Return tt, w')
           ∧ h (self w') = add amt (h (self w))
           ∧ calls w' = calls w ++ [CAdd amt]
           ∧ _tx (self w') = _tx (self w)
           ∧ store (self w') = store (self w)
           ∧ objs w' = objs w).
Proof.
  split; intros Hcash; unfold_sys; rewrite Hcash; simpl.
  - by destruct w.
  - eexists. split; [reflexivity|]. by simpl.
Qed.

(** X11.  When the position holds nothing, or the item there fails its
    check, [buy] raises the error of [pick] before any payment: no handler
    call is made, no transaction becomes active, nothing changes. *)
Theorem buy_stops_at_pick pos w :
  (get_at pos (store (self w)) = None →
   buy_at pos w = Some (Raise "invalid pos", w))
  ∧ (∀ item it, get_at pos (store (self w)) = Some item →
       objs w !! item = Some it → check it = false →
       buy_at pos w = Some (Raise "unavailable", w)).
Proof.
  split.
  - intros Hat. apply buy_pick_raises. unfold_sys. by rewrite Hat.
  - intros item it Hat Hit Hck. apply buy_pick_raises. unfold_sys.
    by rewrite Hat, Hit, Hck.
Qed.

(** X12.  A sale that goes through: when the payment reaches [DONE] and
    [item.mod()] returns [True], [buy] returns the item with the change that
    [ret()] of a [Cash] handler gives, or [None] for another handler.  The
    item is as [mod] left it, [rev] is not called, the store is unchanged,
    and the transaction stays the active one. *)
Theorem buy_success pos w item it tx hs it' :
  get_at pos (store (self w)) = Some item → objs w !! item = Some it →
  check it = true → proc (to_decimal (val it)) (h (self w)) = (tx, hs) →
  st tx hs = DONE → item_mod it = (true, it') →
  ∃ w',
    buy_at pos w
    = Some (Return (item, if is_cash then (ret hs).1 else None), w')
    ∧ objs w' = <[item := it']> (objs w)
    ∧ calls w' = calls w ++ CProc (to_decimal (val it))
                   :: (if is_cash then [CRet] else [])
    ∧ reversals (calls w') = reversals (calls w)
    ∧ h (self w') = (if is_cash then (ret hs).2 else hs)
    ∧ _tx (self w') = Some tx
    ∧ store (self w') = store (self w).
Proof.
  intros Hat Hit Hck Hproc Hst Hmod.
  rewrite (buy_after_payment pos w item it tx hs) by done.
  rewrite decide_False by (intros Hne; by apply Hne). rewrite Hmod. simpl.
  eexists. split; [reflexivity|]. simpl. repeat split.
  unfold reversals. rewrite omap_app. simpl.
  destruct is_cash; simpl; by rewrite app_nil_r.
Qed.

(** X13.  No operation of the workflow restocks, removes or moves anything:
    [ls], [pick], [add_money], [buy] and [cancel] leave the store as it was
    and only add to the record of handler calls; the only object that can
    change is the item bought, every other operation leaves all objects as
    they were. *)
Theorem ops_keep_store (op : Op Decimal) w (r : option string) w' :
  run_op to_decimal check item_mod op w = Some (r, w') →
  store (self w') = store (self w)
  ∧ (∃ more, calls w' = calls w ++ more)
  ∧ match op with
    | OBuy pos =>
        ∀ l, get_at pos (store (self w)) ≠ Some l → objs w' !! l = objs w !! l
    | _ => objs w' = objs w
    end.
Proof.
  assert (∀ w0 : World (Price := Price), ∃ more, calls w0 = calls w0 ++ more)
    as Hnil by (intros w0; exists []; by rewrite app_nil_r).
  destruct op as [|pos|amt|pos|]; unfold run_op, forget.
  - unfold Sys_ls. destruct (ls check (objs w) (store (self w))); [|done].
    destruct (mapM _ _); [|done]. by intros [= _ <-].
  - destruct (pick_at pos w) as [[r0 w0]|] eqn:Hpick; [|done].
    intros [= _ <-]. by rewrite (pick_state check _ _ _ _ Hpick).
  - unfold_sys. destruct is_cash; simpl; intros [= _ <-]; simpl; eauto.
  - destruct (pick_cases pos w)
      as [[Hat Hp]|[(item & _ & _ & Hp)|[(item & it & Hat & Hit & Hck & Hp)
         |(item & it & Hat & Hit & Hck & Hp)]]].
    + rewrite (buy_pick_raises pos w _ Hp). by intros [= _ <-].
    + by rewrite (buy_pick_stuck pos w Hp).
    + rewrite (buy_pick_raises pos w _ Hp). by intros [= _ <-].
    + destruct (proc (to_decimal (val it)) (h (self w))) as [tx hs] eqn:Hproc.
      rewrite (buy_after_payment pos w item it tx hs) by done.
      assert (∀ l, Some item ≠ Some l →
                (<[item := (item_mod it).2]> (objs w)) !! l = objs w !! l)
        as Hframe.
      { intros l Hl. apply lookup_insert_ne. congruence. }
      rewrite Hat.
      destruct (decide (st tx hs ≠ DONE)); [|destruct (item_mod it).1];
        intros [= _ <-]; simpl; (split; [done|]); (split; [eauto|]); done.
  - unfold_sys. destruct (_tx (self w)) as [tx|].
    + destruct (rev tx (h (self w))) as [ok hs]. destruct ok; simpl.
      * destruct is_cash; simpl.
        -- destruct (ret hs). intros [= _ <-]. simpl.
           split; [done|]. split; [|done]. rewrite <- app_assoc. eauto.
        -- intros [= _ <-]. simpl. eauto.
      * intros [= _ <-]. simpl. eauto.
    + by intros [= _ <-].
Qed.

(** X14.  The errors of [buy] and their causes.  When [buy] raises, the
    error is ['invalid pos'] (nothing at the position) or ['unavailable']
    (the item fails its check), with nothing changed; or the payment did not
    reach [DONE] and the error is the transaction's message or
    ['tx failed']; or the payment reached [DONE], [item.mod()] returned
    [False] and the error is ['dispense failed']. *)
Theorem buy_errors pos w (e : string) w' :
  buy_at pos w = Some (Raise e, w') →
  (e = "invalid pos"%string ∧ get_at pos (store (self w)) = None ∧ w' = w)
  ∨ (e = "unavailable"%string ∧ w' = w
     ∧ ∃ item it, get_at pos (store (self w)) = Some item
                  ∧ objs w !! item = Some it ∧ check it = false)
  ∨ ∃ item it tx hs,
      get_at pos (store (self w)) = Some item ∧ objs w !! item = Some it
      ∧ check it = true
      ∧ proc (to_decimal (val it)) (h (self w)) = (tx, hs)
      ∧ _tx (self w') = Some tx
      ∧ ((st tx hs ≠ DONE ∧ e = str_or (msg tx hs) "tx failed")
         ∨ (st tx hs = DONE ∧ (item_mod it).1 = false
            ∧ e = "dispense failed"%string)).
Proof.
  destruct (pick_cases pos w)
    as [[Hat Hp]|[(item & _ & _ & Hp)|[(item & it & Hat & Hit & Hck & Hp)
       |(item & it & Hat & Hit & Hck & Hp)]]].
  - rewrite (buy_pick_raises pos w _ Hp). intros [= <- <-]. by left.
  - by rewrite (buy_pick_stuck pos w Hp).
  - rewrite (buy_pick_raises pos w _ Hp). intros [= <- <-].
    right. left. split; [done|]. split; [done|]. eauto.
  - destruct (proc (to_decimal (val it)) (h (self w))) as [tx hs] eqn:Hproc.
    rewrite (buy_after_payment pos w item it tx hs) by done.
    intros Hbuy. right. right. exists item, it, tx, hs.
    split; [done|]. split; [done|]. split; [done|]. split; [done|].
    destruct (decide (st tx hs ≠ DONE)) as [Hst|Hst].
    + injection Hbuy as <- <-. split; [done|]. by left.
    + apply dec_stable in Hst.
      destruct (item_mod it).1 eqn:Hok; [done|].
      injection Hbuy as <- <-. split; [done|]. right. done.
Qed.

(** A [cancel] with an active transaction calls [rev] on it. *)
Lemma cancel_active w tx :
  _tx (self w) = Some tx →
  ∃ (r : outcome (option Decimal)) w',
    cancel w = Some (r, w')
    ∧ reversals (calls w') = reversals (calls w) ++ [tx]
    ∧ (if (rev tx (h (self w))).1
       then (∃ c, r = Return c) ∧ _tx (self w') = None
       else r = Raise "rev failed" ∧ _tx (self w') = Some tx).
Proof.
  intros Htx. unfold_sys. rewrite Htx.
  destruct (rev tx (h (self w))) as [ok hs]. destruct ok; simpl.
  - destruct is_cash; simpl.
    + destruct (ret hs) as [c hs']. eexists _, _. split; [reflexivity|].
      simpl. split; [|eauto]. unfold reversals.
      rewrite !omap_app. simpl. by rewrite app_nil_r.
    + eexists _, _. split; [reflexivity|]. simpl. split; [|eauto].
      unfold reversals. by rewrite omap_app.
  - eexists _, _. split; [reflexivity|]. simpl. split; [|done].
    unfold reversals. by rewrite omap_app.
Qed.

(** X15.  A [cancel] after a [buy] reverses that purchase.  Once [buy] got
    past [pick], however it ended (also when it returned the item, and also
    when it had already reversed the payment for a failed dispense), the
    next [cancel] does not raise ['no tx']: it calls [rev] once more on the
    transaction of that [buy], and either returns with no transaction active
    or raises ['rev failed'] with the transaction still active. *)
Theorem cancel_after_buy pos w item it tx hs
    (r : outcome (loc * option Decimal)) w' :
  get_at pos (store (self w)) = Some item → objs w !! item = Some it →
  check it = true → proc (to_decimal (val it)) (h (self w)) = (tx, hs) →
  buy_at pos w = Some (r, w') →
  ∃ (r2 : outcome (option Decimal)) w'',
    cancel w' = Some (r2, w'')
    ∧ reversals (calls w'') = reversals (calls w') ++ [tx]
    ∧ (if (rev tx (h (self w'))).1
       then (∃ c, r2 = Return c) ∧ _tx (self w'') = None
       else r2 = Raise "rev failed" ∧ _tx (self w'') = Some tx).
Proof.
  intros Hat Hit Hck Hproc Hbuy. apply cancel_active.
  by apply (buy_keeps_tx to_decimal check item_mod pos w item it tx hs r w').
Qed.

(** X16.  A [cancel] that returned leaves nothing to cancel: the next
    [cancel] raises ['no tx'], calls no handler and changes nothing. *)
Theorem cancel_twice w (c : option Decimal) w' :
  cancel w = Some (Return c, w') →
  cancel w' = Some (Raise "no tx", w').
Proof.
  assert (∀ w0 : World (Price := Price),
            _tx (self w0) = None → cancel w0 = Some (Raise "no tx", w0))
    as Hidle.
  { intros w0 Hnone. unfold_sys. rewrite Hnone. by destruct w0. }
  intros Hc. apply Hidle. revert Hc. unfold_sys.
  destruct (_tx (self w)) as [tx|]; [|done].
  destruct (rev tx (h (self w))) as [ok hs]. destruct ok; simpl; [|done].
  destruct is_cash; simpl.
  - destruct (ret hs). by intros [= _ <-].
  - by intros [= _ <-].
Qed.

Lemma omap_positions_sublist (g : loc * Item Price → option Z)
    (its : list (loc * Item Price)) :
  snd <$> omap (fun li => p ← g li; Some (p, li.1)) its
  `sublist_of` fst <$> its.
Proof.
  induction its as [|[x it] its IH]; [done|].
  rewrite fmap_cons. simpl. destruct (g (x, it)); simpl.
  - by apply sublist_skip.
  - by apply sublist_cons.
Qed.

(** What [Sys.ls] lists, and in which order. *)
Lemma Sys_ls_listing w :
  (∀ l, l ∈ Dict.values (_data (store (self w))) → is_Some (objs w !! l)) →
  ∃ r, Sys_ls check w = Some (Return r, w)
       ∧ StronglySorted pos_le r
       ∧ (∀ p l, (p, l) ∈ r ↔
            l ∈ Dict.values (_data (store (self w)))
            ∧ ∃ it, objs w !! l = Some it ∧ check it = true
                    ∧ find (code it) (store (self w)) = Some p)
       ∧ ∃ sub, sub `sublist_of` Dict.values (_data (store (self w)))
                ∧ snd <$> r ≡ₚ sub.
Proof.
  intros Hall.
  destruct (deref_all (objs w) _ Hall) as (its & Hm & Hfst & Hits).
  unfold Sys_ls, ls. rewrite Hm. simpl.
  set (valid := filter (fun li : loc * Item Price => check li.2 = true) its).
  assert (∀ x it, (x, it) ∈ valid →
            x ∈ Dict.values (_data (store (self w)))
            ∧ objs w !! x = Some it ∧ check it = true) as Hvalid.
  { intros x it Hin. apply list_elem_of_filter in Hin as [Hck Hin].
    split; [|split; [by apply Hits | done]].
    rewrite <- Hfst. apply list_elem_of_fmap. by exists (x, it). }
  destruct (deref_all (objs w) (fst <$> valid))
    as (its2 & Hm2 & Hfst2 & Hits2).
  { intros l Hl. apply list_elem_of_fmap in Hl as [[x it] [-> Hin]].
    apply Hvalid in Hin as (_ & Hx & _). simpl. eauto. }
  rewrite Hm2. eexists. split; [reflexivity|].
  destruct (sorted_by_pos_spec
    (omap (fun li : loc * Item Price =>
             p ← find (code li.2) (store (self w)); Some (p, li.1)) its2))
    as [Hsorted Hperm].
  split; [done|]. split.
  - intros p l. rewrite Hperm, list_elem_of_omap. split.
    + intros [[x it] [Hin Hf]]. simpl in Hf.
      destruct (find (code it) (store (self w))) as [q|] eqn:Hq; [|done].
      simpl in Hf. injection Hf as -> ->.
      assert (l ∈ fst <$> valid) as Hl.
      { rewrite <- Hfst2. apply list_elem_of_fmap. by exists (l, it). }
      apply list_elem_of_fmap in Hl as [[x' it'] [-> Hin']].
      apply Hvalid in Hin' as (Hstored & Hit' & Hck). simpl in *.
      apply Hits2 in Hin. split; [done|]. exists it'.
      split; [done|]. split; [done|]. congruence.
    + intros [Hstored [it [Hit [Hck Hf]]]].
      assert ((l, it) ∈ valid) as Hv.
      { apply list_elem_of_filter. split; [done|].
        rewrite <- Hfst in Hstored.
        apply list_elem_of_fmap in Hstored as [[x it'] [-> Hin]]. simpl in *.
        pose proof (Hits _ _ Hin). congruence. }
      assert (l ∈ fst <$> its2) as Hl2.
      { rewrite Hfst2. apply list_elem_of_fmap. by exists (l, it). }
      apply list_elem_of_fmap in Hl2 as [[x it2] [-> Hin2]]. simpl in *.
      exists (x, it2). split; [done|]. simpl.
      apply Hits2 in Hin2. assert (it2 = it) as -> by congruence.
      by rewrite Hf.
  - eexists. split; [|by rewrite Hperm].
    etrans; [apply omap_positions_sublist|].
    rewrite Hfst2, <- Hfst. apply fmap_sublist, sublist_filter.
Qed.

(** X17.  [Sys.ls] changes nothing and lists, in ascending order of
    position, exactly the pairs of a position and a stored item such that
    the item passes its check and [find] gives that position for the item's
    code; items whose code is found nowhere are left out. *)
Theorem Sys_ls_sorted w :
  (∀ l, l ∈ Dict.values (_data (store (self w))) → is_Some (objs w !! l)) →
  ∃ r, Sys_ls check w = Some (Return r, w)
       ∧ StronglySorted pos_le r
       ∧ ∀ p l, (p, l) ∈ r ↔
           l ∈ Dict.values (_data (store (self w)))
           ∧ ∃ it, objs w !! l = Some it ∧ check it = true
                   ∧ find (code it) (store (self w)) = Some p.
Proof.
  intros Hall. destruct (Sys_ls_listing w Hall) as (r & Hr & Hs & Hin & _).
  by exists r.
Qed.

(** A machine right after construction sells nothing: whatever the objects
    and the handler, every [pick] and every [buy] raises ['invalid pos'],
    [cancel] raises ['no tx'] and [ls] returns the empty list. *)
Example fresh_machine (hp : Heap Price) (h0 : hstate) pos :
  pick_at pos (fresh hp h0) = Some (Raise "invalid pos", fresh hp h0)
  ∧ buy_at pos (fresh hp h0) = Some (Raise "invalid pos", fresh hp h0)
  ∧ cancel (fresh hp h0) = Some (Raise "no tx", fresh hp h0)
  ∧ Sys_ls check (fresh hp h0) = Some (Return [], fresh hp h0).
Proof. repeat split. Qed.
End WorkflowMore.

(** * Stocking and selling together *)

Section StockMore.
Context {Price : Type}.
Implicit Types (hp : Heap Price) (s : Store) (obj : loc) (c : string).

(** A [put] of a new code that returns [True] has placed the item. *)
Lemma put_new_placed obj (pos : option Z) hp s (o : Item Price) hp' s' :
  hp !! obj = Some o → get (code o) s = None →
  put obj pos hp s = Some (true, hp', s') →
  hp' = hp ∧ ∃ i, 0 ≤ i < cap s ∧ Dict.get i (_map s) = None
                  ∧ s' = place i (code o) obj s.
Proof.
  unfold get, put. intros Ho Hnew. rewrite Ho. simpl. rewrite Hnew.
  destruct pos as [p|].
  - case_bool_decide as Hr; [done|].
    destruct (Dict.mem p (_map s)) eqn:Hmem; [done|].
    intros [= <- <-]. split; [done|]. exists p.
    split; [lia|]. split; [by apply DictFacts.mem_false | done].
  - destruct (free_slot s) as [i|] eqn:Hfree; [|done].
    intros [= <- <-]. split; [done|]. exists i.
    apply free_slot_Some in Hfree as (Hi & Hmem & _).
    split; [done|]. split; [by apply DictFacts.mem_false | done].
Qed.

(** X18.  Two deliveries of one code add up.  When a [put] of a new code
    returned [True], a second [put] of an item with the same code, at any
    position or none, returns [True] as well, leaves the store as the first
    [put] made it, and the item stored by the first [put] then counts both
    deliveries. *)
Theorem put_twice_adds obj obj' (pos pos' : option Z) hp s
    (o o' : Item Price) hp1 s1 :
  hp !! obj = Some o → hp !! obj' = Some o' → code o' = code o →
  get (code o) s = None →
  put obj pos hp s = Some (true, hp1, s1) →
  get (code o) s1 = Some obj
  ∧ ∃ hp2, put obj' pos' hp1 s1 = Some (true, hp2, s1)
           ∧ ∃ it, hp2 !! obj = Some it ∧ count it = count o + count o'
                   ∧ code it = code o.
Proof.
  intros Ho Ho' Hcode Hnew Hput.
  destruct (put_new_placed obj pos hp s o hp1 s1 Ho Hnew Hput)
    as (-> & i & _ & _ & ->).
  assert (get (code o) (place i (code o) obj s) = Some obj) as Hget
    by apply place_lookups.
  split; [done|]. unfold get in Hget. simpl in Hget.
  unfold put. rewrite Ho'. simpl. rewrite Hcode, Hget, Ho. simpl.
  eexists. split; [reflexivity|]. eexists. rewrite lookup_insert_eq.
  split; [reflexivity|]. by simpl.
Qed.

(** ** Items filed under their code *)

Lemma keyed_init (n : Z) hp : keyed hp (Store_init n).
Proof. intros c l Hin. by apply elem_of_nil in Hin. Qed.

Lemma keyed_put obj (pos : option Z) hp s (b : bool) hp' s' :
  put obj pos hp s = Some (b, hp', s') → keyed hp s → keyed hp' s'.
Proof.
  unfold put. intros Hput Hk.
  destruct (hp !! obj) as [o|] eqn:Ho; simpl in Hput; [|done].
  assert (∀ p, Dict.get (code o) (_data s) = None →
               keyed hp (place p (code o) obj s)) as Hplace.
  { intros p Hnew c l. simpl. rewrite DictFacts.set_new by done.
    rewrite elem_of_app, list_elem_of_singleton.
    intros [Hin|[= -> ->]]; [by apply Hk | eauto]. }
  destruct (Dict.get (code o) (_data s)) as [curr|] eqn:Hcode.
  - destruct (hp !! curr) as [it0|] eqn:Hcurr; simpl in Hput; [|done].
    injection Hput as _ <- <-. intros c l Hin.
    destruct (Hk c l Hin) as (it & Hit & Hc).
    destruct (decide (l = curr)) as [->|Hne].
    + rewrite lookup_insert_eq. eexists. split; [done|]. simpl. congruence.
    + rewrite lookup_insert_ne by done. eauto.
  - destruct pos as [p|].
    + case_bool_decide; [by injection Hput as _ <- <-|].
      destruct (Dict.mem p (_map s)); injection Hput as _ <- <-; auto.
    + destruct (free_slot s); injection Hput as _ <- <-; auto.
Qed.

Lemma keyed_rm c hp s : keyed hp s → keyed hp (rm c s).2.
Proof.
  intros Hk. unfold rm. destruct (Dict.mem c (_data s)); [|done].
  intros c' l. simpl. intros Hin. apply DictFacts.elem_of_del in Hin as [Hin _].
  by apply Hk.
Qed.

Lemma run_store_keyed (ops : list StoreOp) hp s hp' s' :
  run_store ops hp s = Some (hp', s') → keyed hp s → keyed hp' s'.
Proof.
  revert hp s. induction ops as [|[obj pos|c] ops IH]; intros hp s; simpl.
  - by intros [= <- <-].
  - destruct (put obj pos hp s) as [[[b hp1] s1]|] eqn:Hput; [|done].
    intros Hrest Hk. eapply IH; [exact Hrest|]. by eapply keyed_put.
  - intros Hrest Hk. eapply IH; [exact Hrest|]. by apply keyed_rm.
Qed.

(** X19.  After any sequence of [put] and [rm] calls on a new store, every
    stored item is filed under its own code and no object is stored twice:
    [get(code)] gives an item whose code is [code], and two codes never
    refer to the same object. *)
Theorem store_keyed (n : Z) (ops : list StoreOp) hp hp' s' :
  run_store ops hp (Store_init n) = Some (hp', s') →
  (∀ c l, get c s' = Some l → ∃ it, hp' !! l = Some it ∧ code it = c)
  ∧ (∀ c c' l, get c s' = Some l → get c' s' = Some l → c = c').
Proof.
  intros Hrun.
  pose proof (run_store_keyed ops hp _ hp' s' Hrun (keyed_init n hp)) as Hk.
  assert (∀ c l, get c s' = Some l → ∃ it, hp' !! l = Some it ∧ code it = c)
    as Hown.
  { intros c l Hl. apply Hk. by apply DictFacts.get_Some_elem. }
  split; [done|]. intros c c' l Hc Hc'.
  destruct (Hown c l Hc) as (it & Hit & <-).
  destruct (Hown c' l Hc') as (it' & Hit' & <-). congruence.
Qed.
End StockMore.

Section ListingMore.
Context {Price Decimal : Type} (check : Item Price → bool)
  `{Hd : Handler Decimal}.
Implicit Types (w : World (Price := Price)) (s : Store).

Lemma sorted_strict (r : list (Z * loc)) :
  StronglySorted pos_le r → NoDup (fst <$> r) → StronglySorted pos_lt r.
Proof.
  induction 1 as [|x r Hs IH Hall]; intros Hnd; [constructor|].
  rewrite fmap_cons in Hnd. apply NoDup_cons in Hnd as [Hx Hnd].
  constructor; [by apply IH|].
  apply Forall_forall. intros y Hy.
  pose proof (proj1 (Forall_forall _ _) Hall y Hy) as Hle.
  assert (x.1 ≠ y.1) as Hne.
  { intros Heq. apply Hx. rewrite Heq. by apply list_elem_of_fmap_2. }
  unfold pos_le, pos_lt in *. lia.
Qed.

Lemma keyed_values_NoDup (hp : Heap Price) s :
  Dict.wf (_data s) → keyed hp s → NoDup (Dict.values (_data s)).
Proof.
  intros Hwf Hk. unfold Dict.values. apply NoDup_fmap_2_strong.
  - intros [c l] [c' l'] Hin Hin' Heq. simpl in Heq. subst l'.
    destruct (Hk c l Hin) as (it & Hit & <-).
    destruct (Hk c' l Hin') as (it' & Hit' & <-). congruence.
  - by apply (NoDup_fmap_1 fst).
Qed.

(** X20.  What is put can be picked.  In a machine whose store was kept by
    [put] and [rm], once the operator's [put] of a new code returned [True]
    the item has a position, which [find] gives for its code, and [pick] at
    that position returns this very item when it passes its check, and
    raises ['unavailable'] when it does not. *)
Theorem put_then_pick w (obj : loc) (pos : option Z) (o : Item Price) hp' s' :
  store_inv (store (self w)) → objs w !! obj = Some o →
  get (code o) (store (self w)) = None →
  put obj pos (objs w) (store (self w)) = Some (true, hp', s') →
  ∃ p, find (code o) s' = Some p
       ∧ 0 ≤ p < cap (store (self w))
       ∧ get_at p s' = Some obj
       ∧ pick check p (restock w hp' s')
         = Some (if check o then Return obj else Raise "unavailable",
                 restock w hp' s').
Proof.
  intros Hinv Ho Hnew Hput.
  destruct (put_new_placed obj pos _ _ o hp' s' Ho Hnew Hput)
    as (-> & i & Hi & Hfree & ->).
  assert (get_at i (place i (code o) obj (store (self w))) = Some obj) as Hat
    by apply place_lookups.
  exists i. split; [by apply find_placed|]. split; [done|]. split; [done|].
  unfold pick, restock, bind, deref, raise, pure. simpl.
  unfold get_at in Hat. simpl in Hat. unfold get_at. simpl.
  rewrite Hat, Ho. by destruct (check o).
Qed.

(** X21.  In a machine whose store was kept by [put] and [rm] and whose
    items are filed under their own codes, [Sys.ls] lists every stored item
    that passes its check exactly once, in strictly ascending order of
    position, each with the position at which [get_at] gives that item. *)
Theorem Sys_ls_strict w :
  store_inv (store (self w)) → keyed (objs w) (store (self w)) →
  ∃ r, Sys_ls check w = Some (Return r, w)
       ∧ StronglySorted pos_lt r
       ∧ (∀ p l, (p, l) ∈ r →
            get_at p (store (self w)) = Some l
            ∧ ∃ it, objs w !! l = Some it ∧ check it = true)
       ∧ (∀ c l it, get c (store (self w)) = Some l →
            objs w !! l = Some it → check it = true →
            ∃ p, (p, l) ∈ r).
Proof.
  intros Hinv Hk. pose proof (inv_data_wf _ Hinv) as Hdw.
  destruct (Sys_ls_listing check w) as (r & Hr & Hs & Hin & sub & Hsub & Hperm).
  { intros l Hl. apply list_elem_of_fmap in Hl as [[c l'] [-> Hl]].
    destruct (Hk c l' Hl) as (it & Hit & _). simpl. eauto. }
  assert (∀ p l, (p, l) ∈ r →
            get_at p (store (self w)) = Some l
            ∧ ∃ it, objs w !! l = Some it ∧ check it = true) as Hsound.
  { intros p l Hpl. apply Hin in Hpl as (Hstored & it & Hit & Hck & Hf).
    split; [|eauto].
    apply list_elem_of_fmap in Hstored as [[c l'] [Hl Hstored]].
    simpl in Hl. subst l'. destruct (Hk c l Hstored) as (it' & Hit' & Hc).
    assert (it' = it) as -> by congruence. rewrite Hc in Hf.
    destruct (find_in_map c _ p Hinv Hf) as (_ & _ & ->).
    by apply DictFacts.elem_get. }
  exists r. split; [done|]. split; [|split; [done|]].
  - apply sorted_strict; [done|]. apply NoDup_fmap_2_strong.
    + intros [p l] [p' l'] Hx Hy Heq. simpl in Heq. subst p'.
      apply Hsound in Hx as [Hx _]. apply Hsound in Hy as [Hy _]. congruence.
    + apply (NoDup_fmap_1 snd). rewrite Hperm.
      eapply sublist_NoDup; [|exact Hsub].
      by apply (keyed_values_NoDup (objs w)).
  - intros c l it Hl Hit Hck.
    destruct (stored_is_found c _ l Hinv Hl) as (p & Hf). exists p. apply Hin.
    apply DictFacts.get_Some_elem in Hl.
    split; [apply list_elem_of_fmap; by exists (c, l)|].
    destruct (Hk c l Hl) as (it' & Hit' & Hc).
    assert (it' = it) as -> by congruence. exists it. by rewrite Hc.
Qed.
End ListingMore.

(** * The further statements at work on the concrete machine *)

Section MoreExamples.
Import Demo.

Local Abbreviation card_machine := (machine (Hd := card)).
Local Abbreviation cash_machine := (machine (Hd := cash)).
Local Abbreviation price := (fun v : Z => v).

Lemma full1_inv : store_inv full1.
Proof.
  exact (proj1 (puts_inv [(0%nat, Some 0)] memory (Store_init 1) memory full1
                         eq_refl (store_inv_init 1))).
Defined.

Lemma shelf2_inv : store_inv shelf2.
Proof.
  exact (proj1 (puts_inv [(0%nat, Some 0); (2%nat, None)] memory
                         (Store_init 5) memory shelf2
                         eq_refl (store_inv_init 5))).
Defined.

Lemma shelf_keyed : keyed memory shelf.
Proof.
  exact (run_store_keyed [SPut 0%nat (Some 0)] memory (Store_init 5)
           memory shelf eq_refl (keyed_init 5 memory)).
Defined.

Lemma find_get_at_witness :
  0 ≤ 1 < cap shelf2 ∧ Dict.get 1 (_map shelf2) = Some "chips"%string
  ∧ get_at 1 shelf2 = get "chips" shelf2.
Proof.
  exact (proj1 (find_get_at "chips" shelf2 shelf2_inv) 1 eq_refl).
Defined.

Lemma put_at_roundtrip_witness :
  ∃ s', put 2%nat (Some 3) memory shelf = Some (true, memory, s')
        ∧ get_at 3 s' = Some 2%nat
        ∧ get "chips" s' = Some 2%nat
        ∧ find "chips" s' = Some 3
        ∧ occupied s' = 2%nat.
Proof.
  apply (put_at_roundtrip 2%nat 3 memory shelf chips shelf_inv);
    [reflexivity | reflexivity | simpl; lia | reflexivity].
Defined.

Lemma put_iff_room_witness :
  (∃ i, 0 ≤ i < 5 ∧ Dict.get i (_map shelf) = None
        ∧ put 2%nat None memory shelf
          = Some (true, memory, place i "chips" 2%nat shelf))
  ∧ ∀ pos, put 2%nat pos memory full1 = Some (false, memory, full1).
Proof.
  split.
  - apply (proj1 (put_iff_room 2%nat memory shelf chips shelf_inv
                    eq_refl eq_refl)). unfold occupied, Dict.len. simpl. lia.
  - apply (proj2 (put_iff_room 2%nat memory full1 chips full1_inv
                    eq_refl eq_refl)). unfold occupied, Dict.len. simpl. lia.
Defined.

Lemma put_never_overwrites_witness :
  get "cola" shelf2 = Some 0%nat ∧ get_at 0 shelf2 = Some 0%nat.
Proof.
  destruct (put_never_overwrites 2%nat None memory shelf true memory shelf2
              eq_refl) as (Hget & _ & Hat & _).
  split; [exact (Hget "cola"%string 0%nat eq_refl) | exact (Hat 0 0%nat eq_refl)].
Defined.

Lemma rm_keeps_others_witness :
  get "chips" (rm "cola" shelf2).2 = get "chips" shelf2
  ∧ find "chips" (rm "cola" shelf2).2 = find "chips" shelf2
  ∧ get_at 1 (rm "cola" shelf2).2 = get_at 1 shelf2.
Proof.
  assert ("chips"%string ≠ "cola"%string) as Hne by discriminate.
  destruct (rm_keeps_others "cola" "chips" shelf2 shelf2_inv Hne)
    as (Hget & Hfind & Hpos).
  split; [exact Hget|]. split; [exact Hfind|].
  exact (proj2 (Hpos 1 eq_refl)).
Defined.

Lemma rm_frees_position_witness :
  S (occupied (rm "cola" shelf2).2) = occupied shelf2
  ∧ get_at 0 (rm "cola" shelf2).2 = None
  ∧ ∃ s', put 1%nat (Some 0) memory (rm "cola" shelf2).2
          = Some (true, memory, s')
          ∧ get_at 0 s' = Some 1%nat ∧ find "cola" s' = Some 0.
Proof.
  destruct (rm_frees_position (Price := Z) "cola" shelf2 0 0%nat shelf2_inv
              eq_refl eq_refl) as (Hocc & _ & Hat & Hput).
  split; [exact Hocc|]. split; [exact Hat|].
  exact (Hput memory 1%nat more_cola eq_refl eq_refl).
Defined.

Lemma store_consistent_witness :
  cap shelf = 5
  ∧ Z.of_nat (occupied shelf) ≤ Z.max 0 5
  ∧ (∀ p c, Dict.get p (_map shelf) = Some c →
            0 ≤ p < 5 ∧ ∃ l, get c shelf = Some l ∧ get_at p shelf = Some l)
  ∧ (∀ c l, get c shelf = Some l → ∃ p, positions_of c shelf = [p]).
Proof.
  exact (store_consistent 5
           [SPut 0%nat (Some 0); SPut 2%nat None; SRm "chips"; SPut 1%nat None]
           memory (<[0%nat := add_count 3 cola]> memory) shelf eq_refl).
Defined.

Lemma memory_holds_shelf :
  ∀ l, l ∈ Dict.values (_data shelf) → is_Some (memory !! l).
Proof.
  intros l Hl. apply list_elem_of_singleton in Hl. subst l. by exists cola.
Defined.

Lemma ls_valid_items_witness :
  ∃ r, ls in_stock memory shelf = Some r
       ∧ r `sublist_of` Dict.values (_data shelf)
       ∧ ∀ l, l ∈ r ↔ l ∈ Dict.values (_data shelf)
                      ∧ ∃ it, memory !! l = Some it ∧ in_stock it = true.
Proof. exact (ls_valid_items in_stock memory shelf memory_holds_shelf). Defined.

Lemma pick_outcomes_witness :
  cash_machine 200 None = cash_machine 200 None
  ∧ ((("invalid pos" = "invalid pos")%string ∧ get_at 3 shelf = None)
     ∨ (("invalid pos" = "unavailable")%string
        ∧ ∃ item it, get_at 3 shelf = Some item
                     ∧ memory !! item = Some it ∧ in_stock it = false)).
Proof.
  exact (pick_outcomes (Hd := cash) in_stock 3 (cash_machine 200 None)
           (Raise "invalid pos") (cash_machine 200 None) eq_refl).
Defined.

Lemma add_money_outcomes_witness :
  add_money 500 (card_machine 100 None)
  = Some (Raise "cash not supported", card_machine 100 None)
  ∧ ∃ w', add_money 500 (cash_machine 0 None) = Some (Return tt, w')
          ∧ h (self w') = 500.
Proof.
  split.
  - exact (proj1 (add_money_outcomes (Price := Z) (Hd := card) 500
                    (card_machine 100 None)) eq_refl).
  - destruct (proj2 (add_money_outcomes (Price := Z) (Hd := cash) 500
                       (cash_machine 0 None)) eq_refl)
      as (w' & Hadd & Hh & _).
    exists w'. split; [exact Hadd | exact Hh].
Defined.

Lemma buy_stops_at_pick_witness :
  buy (Hd := cash) price in_stock take_one 3 (cash_machine 200 None)
  = Some (Raise "invalid pos", cash_machine 200 None)
  ∧ buy (Hd := cash) price (fun _ => false) take_one 0 (cash_machine 200 None)
    = Some (Raise "unavailable", cash_machine 200 None).
Proof.
  split.
  - exact (proj1 (buy_stops_at_pick (Hd := cash) price in_stock take_one 3
                    (cash_machine 200 None)) eq_refl).
  - exact (proj2 (buy_stops_at_pick (Hd := cash) price (fun _ => false)
                    take_one 0 (cash_machine 200 None))
             0%nat cola eq_refl eq_refl eq_refl).
Defined.

Lemma buy_success_witness :
  ∃ w',
    buy (Hd := cash) price in_stock take_one 0 (cash_machine 200 None)
    = Some (Return (0%nat, Some 50), w')
    ∧ objs w' = <[0%nat := {| code := "cola"; count := 1; val := 150 |}]> memory
    ∧ calls w' = [] ++ [CProc (Hd := cash) 150; CRet]
    ∧ reversals (calls w') = []
    ∧ h (self w') = 0
    ∧ _tx (self w') = Some approved
    ∧ store (self w') = shelf.
Proof.
  exact (buy_success (Hd := cash) price in_stock take_one
           0 (cash_machine 200 None) 0%nat cola approved 50
           {| code := "cola"; count := 1; val := 150 |}
           eq_refl eq_refl eq_refl eq_refl eq_refl eq_refl).
Defined.

Lemma ops_keep_store_witness :
  store (self after_sale) = shelf
  ∧ (∃ more, calls after_sale = [] ++ more)
  ∧ ∀ l, get_at 0 shelf ≠ Some l → objs after_sale !! l = memory !! l.
Proof.
  exact (ops_keep_store (Hd := cash) price in_stock take_one (OBuy 0)
           (cash_machine 200 None) None after_sale eq_refl).
Defined.

Lemma buy_errors_witness :
  (("insufficient funds" = "invalid pos")%string ∧ get_at 0 shelf = None
   ∧ paid (card_machine 100 None) 150 declined 100 = card_machine 100 None)
  ∨ (("insufficient funds" = "unavailable")%string
     ∧ paid (card_machine 100 None) 150 declined 100 = card_machine 100 None
     ∧ ∃ item it, get_at 0 shelf = Some item
                  ∧ memory !! item = Some it ∧ in_stock it = false)
  ∨ ∃ item it (tx : DTx) (hs : Z),
      get_at 0 shelf = Some item ∧ memory !! item = Some it
      ∧ in_stock it = true
      ∧ charge (val it) 100 = (tx, hs)
      ∧ Some declined = Some tx
      ∧ ((d_st tx ≠ Done
          ∧ ("insufficient funds" = str_or (d_msg tx) "tx failed")%string)
         ∨ (d_st tx = Done ∧ (take_one it).1 = false
            ∧ ("insufficient funds" = "dispense failed")%string)).
Proof.
  exact (buy_errors (Hd := card) price in_stock take_one 0
           (card_machine 100 None) "insufficient funds"
           (paid (card_machine 100 None) 150 declined 100) eq_refl).
Defined.

Lemma cancel_after_buy_witness :
  ∃ (r2 : outcome (option Z)) w'',
    cancel after_sale = Some (r2, w'')
    ∧ reversals (calls w'') = reversals (calls after_sale) ++ [approved]
    ∧ (∃ c, r2 = Return c) ∧ _tx (self w'') = None.
Proof.
  exact (cancel_after_buy (Hd := cash) price in_stock take_one
           0 (cash_machine 200 None) 0%nat cola approved 50
           (Return (0%nat, Some 50)) after_sale
           eq_refl eq_refl eq_refl eq_refl eq_refl).
Defined.

Lemma cancel_twice_witness :
  cancel refunded = Some (Raise "no tx", refunded).
Proof.
  exact (cancel_twice (Price := Z) (Hd := cash)
           (cash_machine 50 (Some approved)) (Some 200) refunded eq_refl).
Defined.
End MoreExamples.

Section StockExamples.
Import Demo.

Local Abbreviation cash_machine := (machine (Hd := cash)).

Lemma Sys_ls_sorted_witness :
  ∃ r, Sys_ls in_stock (cash_machine 200 None)
       = Some (Return r, cash_machine 200 None)
       ∧ StronglySorted pos_le r
       ∧ ∀ p l, (p, l) ∈ r ↔
           l ∈ Dict.values (_data shelf)
           ∧ ∃ it, memory !! l = Some it ∧ in_stock it = true
                   ∧ find (code it) shelf = Some p.
Proof.
  exact (Sys_ls_sorted (Hd := cash) in_stock (cash_machine 200 None)
           memory_holds_shelf).
Defined.

Lemma put_twice_adds_witness :
  get "cola" shelf = Some 0%nat
  ∧ ∃ hp2, put 1%nat (Some 9) memory shelf = Some (true, hp2, shelf)
           ∧ ∃ it, hp2 !! 0%nat = Some it ∧ count it = 2 + 3
                   ∧ code it = "cola"%string.
Proof.
  exact (put_twice_adds 0%nat 1%nat (Some 0) (Some 9) memory (Store_init 5)
           cola more_cola memory shelf
           eq_refl eq_refl eq_refl eq_refl eq_refl).
Defined.

Lemma store_keyed_witness :
  (∀ c l, get c shelf = Some l →
          ∃ it, (<[0%nat := add_count 3 cola]> memory) !! l = Some it
                ∧ code it = c)
  ∧ (∀ c c' l, get c shelf = Some l → get c' shelf = Some l → c = c').
Proof.
  exact (store_keyed 5
           [SPut 0%nat (Some 0); SPut 2%nat None; SRm "chips"; SPut 1%nat None]
           memory (<[0%nat := add_count 3 cola]> memory) shelf eq_refl).
Defined.

Lemma put_then_pick_witness :
  ∃ p, find "chips" shelf2 = Some p
       ∧ 0 ≤ p < 5
       ∧ get_at p shelf2 = Some 2%nat
       ∧ pick in_stock p (restock (cash_machine 200 None) memory shelf2)
         = Some (Return 2%nat, restock (cash_machine 200 None) memory shelf2).
Proof.
  exact (put_then_pick (Hd := cash) in_stock (cash_machine 200 None)
           2%nat None chips memory shelf2 shelf_inv eq_refl eq_refl eq_refl).
Defined.

Lemma Sys_ls_strict_witness :
  ∃ r, Sys_ls in_stock (cash_machine 200 None)
       = Some (Return r, cash_machine 200 None)
       ∧ StronglySorted pos_lt r
       ∧ (∀ p l, (p, l) ∈ r →
            get_at p shelf = Some l
            ∧ ∃ it, memory !! l = Some it ∧ in_stock it = true)
       ∧ (∀ c l it, get c shelf = Some l →
            memory !! l = Some it → in_stock it = true →
            ∃ p, (p, l) ∈ r).
Proof.
  exact (Sys_ls_strict (Hd := cash) in_stock (cash_machine 200 None)
           shelf_inv shelf_keyed).
Defined.
Lemma rm_complete_witness :
  (rm "cola" shelf2).1 = true
  ∧ get "cola" (rm "cola" shelf2).2 = None
  ∧ find "cola" (rm "cola" shelf2).2 = None
  ∧ _data (rm "cola" shelf2).2 = [("chips"%string, 2%nat)]
  ∧ _map (rm "cola" shelf2).2 = [(1, "chips"%string)]
  ∧ get "chips" (rm "cola" shelf2).2 = Some 2%nat
  ∧ find "chips" (rm "cola" shelf2).2 = Some 1
  ∧ get_at 1 (rm "cola" shelf2).2 = Some 2%nat.
Proof.
  pose proof (rm_complete "cola" shelf2) as Hrm.
  change (get "cola" shelf2) with (Some 0%nat) in Hrm.
  destruct Hrm as (Htrue & Hget & Hfind & _ & _ & _ & _ & Hdata & Hothers & Hdict).
  destruct (Hdict (inv_map_wf shelf2 shelf2_inv)) as (Hmap & Hfinds & Hpos).
  assert ("chips"%string ≠ "cola"%string) as Hne by discriminate.
  split; [exact Htrue|]. split; [exact Hget|]. split; [exact Hfind|].
  split; [exact Hdata|]. split; [exact Hmap|].
  split; [exact (Hothers "chips"%string Hne)|].
  split; [exact (Hfinds "chips"%string Hne)|].
  exact (proj2 (Hpos 1 "chips"%string eq_refl Hne)).
Defined.
End StockExamples.
